(** * ember-lifeline: debounced tasks (addon/debounce-task.ts)

    A shallow embedding of [debounceTask], [cancelDebounce] and
    [getDebouncesDisposable], together with the JavaScript objects they
    touch: the module-level [registeredDebounces] WeakMap, the per-owner
    [Map] objects it points to, the closures built by [debounceTask], and
    the two collaborators ([@ember/runloop] and [./utils/disposable]). *)

From stdpp Require Import base option list strings gmap.
From Stdlib Require Import ZArith Lia.

Set Default Proof Using "Type".

(** ** JavaScript values *)

Inductive value :=
| VUndefined
| VNull
| VBool (b : bool)
| VNumber (z : Z)
| VString (s : string)
| VFunction (f : nat)      (* a user function, named by its reference *)
| VObject (o : nat).

#[global] Instance value_eq_dec : EqDecision value.
Proof. solve_decision. Defined.

Inductive js_type :=
  TUndefined | TBoolean | TNumber | TString | TFunction | TObject.

#[global] Instance js_type_eq_dec : EqDecision js_type.
Proof. solve_decision. Defined.

(** [typeof v] *)
Definition typeof (v : value) : js_type :=
  match v with
  | VUndefined => TUndefined
  | VNull => TObject
  | VBool _ => TBoolean
  | VNumber _ => TNumber
  | VString _ => TString
  | VFunction _ => TFunction
  | VObject _ => TObject
  end.

(** ToBoolean, as used by [!obj.isDestroyed]. *)
Definition truthy (v : value) : bool :=
  match v with
  | VUndefined | VNull => false
  | VBool b => b
  | VNumber z => negb (Z.eqb z 0)
  | VString s => negb (String.eqb s EmptyString)
  | VFunction _ | VObject _ => true
  end.

(** ** The built-in [Map]: insertion-ordered, keys compared by identity
    (strings by content, functions by reference). *)

Module JsMap.
Section JsMap.
Context {K V : Type} `{EqDecision K}.

Fixpoint get (k : K) (m : list (K * V)) : option V :=
  match m with
  | [] => None
  | (k', v) :: m' => if decide (k = k') then Some v else get k m'
  end.

Definition has (k : K) (m : list (K * V)) : bool :=
  match get k m with Some _ => true | None => false end.

(** [m.set(k, v)]: an existing key keeps its position, a new one is
    appended. *)
Fixpoint set (k : K) (v : V) (m : list (K * V)) : list (K * V) :=
  match m with
  | [] => [(k, v)]
  | (k', v') :: m' =>
      if decide (k = k') then (k, v) :: m' else (k', v') :: set k v m'
  end.

(** [m.delete(k)] *)
Fixpoint delete (k : K) (m : list (K * V)) : list (K * V) :=
  match m with
  | [] => []
  | (k', v') :: m' =>
      if decide (k = k') then delete k m' else (k', v') :: delete k m'
  end.

(** [m.values()] *)
Definition values (m : list (K * V)) : list V := m.*2.

Definition keys (m : list (K * V)) : list K := m.*1.
End JsMap.
End JsMap.

(** ** Data of the module *)

(** The arrow function [debouncedTask] of [debounceTask] (lines 89-96). Its
    free variables are [pendingDebounces] (a reference to the owner's Map),
    [obj] and [nameOrFunction]; [cl_id] is the identity of the function
    object, so that two closures over the same variables stay distinct. *)
Record closure := Closure {
  cl_id : nat;
  cl_pendingDebounces : nat;
  cl_obj : nat;
  cl_nameOrFunction : value;
}.

#[global] Instance closure_eq_dec : EqDecision closure.
Proof. solve_decision. Defined.

(** [type PendingDebounce = { debouncedTask: Function; cancelId: EmberRunTimer }] *)
Record PendingDebounce := MkPending {
  debouncedTask : closure;
  cancelId : nat;
}.

#[global] Instance PendingDebounce_eq_dec : EqDecision PendingDebounce.
Proof. solve_decision. Defined.

(** A [Map] object ([type PendingDebounces]): its entries, and the own
    properties of the object itself, which are what the [delete o[k]]
    operator works on. *)
Record map_object := MapObject {
  entries : list (value * PendingDebounce);
  own_props : list (string * value);
}.

Definition new_Map : map_object := MapObject [] [].

(** The function returned by [getDebouncesDisposable(debounces)]; it closes
    over [debounces], which may be undefined. *)
Record disposable := Disposable { debounces : option nat }.

#[global] Instance disposable_eq_dec : EqDecision disposable.
Proof. solve_decision. Defined.

(** One invocation of a user function: [f.apply(this, args)]. *)
Record call := Call {
  call_this : nat;
  call_fn : nat;
  call_args : list value;
}.

Inductive exn :=
| AssertNotStringOrFunction   (* first assert of debounceTask *)
| AssertNotAFunction          (* second assert *)
| AssertDestroyed             (* third assert *)
| TypeErrorNotAFunction       (* calling a member that is not callable *)
| SchedulerError (code : nat) (* raised by the run loop *).

(** The spec's two error classes. *)
Definition InvalidArgumentError (e : exn) : Prop :=
  e = AssertNotStringOrFunction ∨ e = AssertNotAFunction.
Definition InvalidStateError (e : exn) : Prop := e = AssertDestroyed.

Inductive result (A : Type) :=
| Returned (a : A)
| Threw (e : exn).
Arguments Returned {A} a.
Arguments Threw {A} e.

(** ** The run loop

    The interface of [@ember/runloop] this module uses: [debounce(target,
    method, ...args)] returns a timer, [cancel(timer)] may raise, and the
    loop itself lets a timer expire, which yields the method to call and
    its arguments. [sched_init] is the run loop before any request. *)
Class Scheduler (S : Type) := {
  sched_debounce : nat → closure → list value → S → S * nat;
  sched_cancel : nat → S → S * option exn;
  sched_expire : nat → S → option (S * (closure * list value));
  sched_init : S;
}.

Section Debounce.
Context {S : Type} `{Scheduler S}.

(** The state of the program. *)
Record world := World {
  (* owners: every object with its members (prototype chain flattened) *)
  objects : gmap nat (gmap string value);
  (* the global [name] read on line 90 *)
  window_name : string;
  (* [const registeredDebounces = new WeakMap()]: owner -> Map reference *)
  registeredDebounces : gmap nat nat;
  (* the Map objects, by reference *)
  heap : list map_object;
  (* identity of the next function object *)
  next_closure : nat;
  (* teardown actions handed to [registerDisposable], oldest first *)
  disposables : list (nat * disposable);
  scheduler : S;
  (* invocations of user functions, oldest first *)
  calls : list call;
}.

Definition set_objects (f : gmap nat (gmap string value) → gmap nat (gmap string value)) (w : world) : world :=
  World (f (objects w)) (window_name w) (registeredDebounces w) (heap w)
        (next_closure w) (disposables w) (scheduler w) (calls w).
Definition set_registeredDebounces (f : gmap nat nat → gmap nat nat) (w : world) : world :=
  World (objects w) (window_name w) (f (registeredDebounces w)) (heap w)
        (next_closure w) (disposables w) (scheduler w) (calls w).
Definition set_heap (f : list map_object → list map_object) (w : world) : world :=
  World (objects w) (window_name w) (registeredDebounces w) (f (heap w))
        (next_closure w) (disposables w) (scheduler w) (calls w).
Definition set_next_closure (f : nat → nat) (w : world) : world :=
  World (objects w) (window_name w) (registeredDebounces w) (heap w)
        (f (next_closure w)) (disposables w) (scheduler w) (calls w).
Definition set_disposables (f : list (nat * disposable) → list (nat * disposable)) (w : world) : world :=
  World (objects w) (window_name w) (registeredDebounces w) (heap w)
        (next_closure w) (f (disposables w)) (scheduler w) (calls w).
Definition set_scheduler (f : S → S) (w : world) : world :=
  World (objects w) (window_name w) (registeredDebounces w) (heap w)
        (next_closure w) (disposables w) (f (scheduler w)) (calls w).
Definition set_calls (f : list call → list call) (w : world) : world :=
  World (objects w) (window_name w) (registeredDebounces w) (heap w)
        (next_closure w) (disposables w) (scheduler w) (f (calls w)).

(** *** A state and exception monad *)

Definition M (A : Type) : Type := world → world * result A.

Definition ret {A} (a : A) : M A := λ w, (w, Returned a).
Definition throw {A} (e : exn) : M A := λ w, (w, Threw e).
Definition bind {A B} (m : M A) (k : A → M B) : M B :=
  λ w, match m w with
       | (w', Returned a) => k a w'
       | (w', Threw e) => (w', Threw e)
       end.
Definition gets {A} (f : world → A) : M A := λ w, (w, Returned (f w)).
Definition modify (f : world → world) : M unit := λ w, (f w, Returned tt).

Notation "'let!' x ':=' m 'in' k" := (bind m (λ x, k))
  (at level 10, x pattern, m at level 100, k at level 200).
Notation "m ';;;' k" := (bind m (λ _, k))
  (at level 100, k at level 200, right associativity).

(** Modelled from the spec: [assert(desc, test)] of [@ember/debug] (line 3),
    which is not among the sources. A check that fails raises
    synchronously, where it stands: the first two checks of [debounceTask]
    raise the spec's InvalidArgumentError, the third its InvalidStateError.
    A build in which the framework turns [assert] into a no-op is not
    modelled. *)
Definition assert (e : exn) (test : bool) : M unit :=
  if test then ret tt else throw e.

(** *** Primitive operations *)

(** [obj[k]] for a string key; a missing object or member reads as
    undefined. *)
Definition get_prop (w : world) (obj : nat) (k : string) : value :=
  default VUndefined (objects w !! obj ≫= λ ps, ps !! k).

(** [obj[nameOrFunction]]. It is only evaluated once the first assert has
    passed, with a string whenever [nameOrFunction] is not a function. *)
Definition member (w : world) (obj : nat) (nameOrFunction : value) : value :=
  match nameOrFunction with
  | VString s => get_prop w obj s
  | _ => VUndefined
  end.

Definition is_function (v : value) : bool := bool_decide (typeof v = TFunction).
Definition is_string (v : value) : bool := bool_decide (typeof v = TString).

(** Dereference a Map. *)
Definition deref (w : world) (r : nat) : map_object :=
  default new_Map (heap w !! r).

(** [new Map()] *)
Definition alloc_Map : M nat :=
  λ w, (set_heap (λ h, h ++ [new_Map]) w, Returned (length (heap w))).

(** [r.get(k)], [r.has(k)], [r.set(k, v)], [r.delete(k)] *)
Definition Map_get (r : nat) (k : value) : M (option PendingDebounce) :=
  gets (λ w, JsMap.get k (entries (deref w r))).
Definition Map_has (r : nat) (k : value) : M bool :=
  gets (λ w, JsMap.has k (entries (deref w r))).
Definition Map_set (r : nat) (k : value) (p : PendingDebounce) : M unit :=
  modify (λ w, set_heap
    (λ h, <[r := MapObject (JsMap.set k p (entries (deref w r))) (own_props (deref w r))]> h) w).
Definition Map_delete (r : nat) (k : value) : M unit :=
  modify (λ w, set_heap
    (λ h, <[r := MapObject (JsMap.delete k (entries (deref w r))) (own_props (deref w r))]> h) w).

(** [delete r[k]]: removes the own property [k] of the object [r]. *)
Definition delete_property (r : nat) (k : string) : M unit :=
  modify (λ w, set_heap
    (λ h, <[r := MapObject (entries (deref w r)) (JsMap.delete k (own_props (deref w r)))]> h) w).

(** A new function object for the arrow function on line 89. *)
Definition alloc_closure (r obj : nat) (nameOrFunction : value) : M closure :=
  λ w, (set_next_closure Datatypes.S w,
        Returned (Closure (next_closure w) r obj nameOrFunction)).

(** Modelled from the spec: [registerDisposable] of [./utils/disposable],
    which is not among the sources. The lifecycle collaborator records the
    action for the owner; registrations are independent of each other. *)
Definition registerDisposable (obj : nat) (d : disposable) : M unit :=
  modify (set_disposables (λ ds, ds ++ [(obj, d)])).

(** [debounce(obj, debouncedTask, ...debounceArgs)] *)
Definition debounce (obj : nat) (method : closure) (debounceArgs : list value) : M nat :=
  λ w, let '(s, t) := sched_debounce obj method debounceArgs (scheduler w) in
       (set_scheduler (λ _, s) w, Returned t).

(** [cancel(cancelId)] *)
Definition cancel (t : nat) : M unit :=
  λ w, let '(s, r) := sched_cancel t (scheduler w) in
       (set_scheduler (λ _, s) w,
        match r with Some e => Threw e | None => Returned tt end).

(** [f.apply(this, args)] for a user function: recorded in [calls]. *)
Definition apply_function (f this : nat) (args : list value) : M unit :=
  modify (set_calls (λ cs, cs ++ [Call this f args])).

(** *** The module's functions *)

Definition getDebouncesDisposable (debounces : option nat) : disposable :=
  Disposable debounces.

(** Lines 89-96: the body of [debouncedTask], called with [args]. *)
Definition call_debouncedTask (c : closure) (args : list value) : M unit :=
  let pendingDebounces := cl_pendingDebounces c in
  let obj := cl_obj c in
  let nameOrFunction := cl_nameOrFunction c in
  let! name := gets window_name in
  delete_property pendingDebounces name ;;;
  match nameOrFunction with
  | VFunction f => apply_function f obj args
  | _ =>
      let! m := gets (λ w, member w obj nameOrFunction) in
      match m with
      | VFunction f => apply_function f obj args
      | _ => throw TypeErrorNotAFunction
      end
  end.

(** Lines 78-83: the owner's Map, created and wired to the owner's teardown
    on first use (the spec's getOrCreateMap). *)
Definition pendingDebounces_of (obj : nat) : M nat :=
  let! found := gets (λ w, registeredDebounces w !! obj) in
  match found with
  | Some r => ret r
  | None =>
      let! r := alloc_Map in
      modify (set_registeredDebounces (λ reg, <[obj := r]> reg)) ;;;
      registerDisposable obj (getDebouncesDisposable (Some r)) ;;;
      ret r
  end.

(** Lines 60-105. *)
Definition debounceTask (obj : nat) (nameOrFunction : value)
    (debounceArgs : list value) : M unit :=
  assert AssertNotStringOrFunction
    (is_string nameOrFunction || is_function nameOrFunction) ;;;
  (let! m := gets (λ w, member w obj nameOrFunction) in
   assert AssertNotAFunction (is_function nameOrFunction || is_function m)) ;;;
  (let! d := gets (λ w, get_prop w obj "isDestroyed"%string) in
   assert AssertDestroyed (negb (truthy d))) ;;;
  let! pendingDebounces := pendingDebounces_of obj in
  let! pendingDebounce := Map_get pendingDebounces nameOrFunction in
  let! debouncedTask :=
    match pendingDebounce with
    | None => alloc_closure pendingDebounces obj nameOrFunction
    | Some p => ret (debouncedTask p)
    end in
  let! cancelId := debounce obj debouncedTask debounceArgs in
  Map_set pendingDebounces nameOrFunction (MkPending debouncedTask cancelId).

(** Lines 141-155. *)
Definition cancelDebounce (obj : nat) (nameOrFunction : value) : M unit :=
  let! found := gets (λ w, registeredDebounces w !! obj) in
  match found with
  | None => ret tt
  | Some pendingDebounces =>
      let! present := Map_has pendingDebounces nameOrFunction in
      if negb present then ret tt
      else
        let! p := Map_get pendingDebounces nameOrFunction in
        match p with
        | None => ret tt   (* excluded by [has] *)
        | Some p =>
            Map_delete pendingDebounces nameOrFunction ;;;
            cancel (cancelId p)
        end
  end.

(** Lines 163-165: [for (const { cancelId } of debounces.values())]. *)
Fixpoint cancel_each (ps : list PendingDebounce) : M unit :=
  match ps with
  | [] => ret tt
  | p :: ps' => cancel (cancelId p) ;;; cancel_each ps'
  end.

(** Lines 158-166: running the function that [getDebouncesDisposable]
    returned. *)
Definition run_disposable (d : disposable) : M unit :=
  match debounces d with
  | None => ret tt
  | Some r =>
      let! ps := gets (λ w, JsMap.values (entries (deref w r))) in
      cancel_each ps
  end.

(** The run loop lets timer [t] expire: the scheduler hands back the
    method and its arguments, and the method is called. *)
Definition expire (t : nat) : M unit :=
  λ w, match sched_expire t (scheduler w) with
       | None => (w, Returned tt)
       | Some (s, (method, args)) =>
           call_debouncedTask method args (set_scheduler (λ _, s) w)
       end.

(** The three tests of lines 65-76 taken together. *)
Definition accepts (w : world) (obj : nat) (nameOrFunction : value) : bool :=
  (is_string nameOrFunction || is_function nameOrFunction)
  && (is_function nameOrFunction || is_function (member w obj nameOrFunction))
  && negb (truthy (get_prop w obj "isDestroyed"%string)).

(** The function a task identity stands for on [obj] in [w]: itself, or
    the member it names. *)
Definition task_function (w : world) (obj : nat) (nameOrFunction : value) : value :=
  match nameOrFunction with
  | VFunction f => VFunction f
  | _ => member w obj nameOrFunction
  end.

(** [schedule] called once for each element of [argss], in order, with
    nothing else happening in between. *)
Fixpoint debounceTask_each (obj : nat) (nameOrFunction : value)
    (argss : list (list value)) : M unit :=
  match argss with
  | [] => ret tt
  | debounceArgs :: rest =>
      debounceTask obj nameOrFunction debounceArgs ;;;
      debounceTask_each obj nameOrFunction rest
  end.

(** *** The program around the module

    [obj[k] = v] done by the application: a method is replaced, or the
    framework marks the object destroyed. *)
Definition assign (obj : nat) (k : string) (v : value) (w : world) : world :=
  set_objects (λ os, <[obj := <[k := v]> (default ∅ (os !! obj))]> os) w.

(** The module is loaded: nothing registered, no Map, no function object. *)
Definition initial (objs : gmap nat (gmap string value)) (name : string) : world :=
  World objs name ∅ [] 0 [] sched_init [].

(** What can happen next: a call of one of the two exported functions, a
    timer expiring in the run loop, the lifecycle collaborator running a
    registered teardown action, or the application assigning a member. *)
Inductive step : world → world → Prop :=
| step_debounceTask obj nameOrFunction debounceArgs w :
    step w (debounceTask obj nameOrFunction debounceArgs w).1
| step_cancelDebounce obj nameOrFunction w :
    step w (cancelDebounce obj nameOrFunction w).1
| step_expire t w :
    step w (expire t w).1
| step_teardown obj d w :
    (obj, d) ∈ disposables w →
    step w (run_disposable d w).1
| step_assign obj k v w :
    step w (assign obj k v w).

Inductive reachable : world → Prop :=
| reachable_initial objs name : reachable (initial objs name)
| reachable_step w w' : reachable w → step w w' → reachable w'.

(** [c] is the callback made for key [k] of the Map [r]: it closes over
    that Map, that key and the owner of that Map. *)
Definition closes_over (w : world) (r : nat) (k : value) (c : closure) : Prop :=
  cl_pendingDebounces c = r
  ∧ cl_nameOrFunction c = k
  ∧ cl_id c < next_closure w
  ∧ registeredDebounces w !! cl_obj c = Some r.

(** *** Well-formed states

    What the module keeps true of its own data, whatever the run loop
    does. *)
Record wf (w : world) : Prop := WF {
  (* a registered Map exists *)
  wf_refs : ∀ o r, registeredDebounces w !! o = Some r → r < length (heap w);
  (* two owners never share a Map *)
  wf_inj : ∀ o1 o2 r,
    registeredDebounces w !! o1 = Some r →
    registeredDebounces w !! o2 = Some r → o1 = o2;
  (* a Map holds a key once *)
  wf_keys : ∀ r m, heap w !! r = Some m → NoDup (JsMap.keys (entries m));
  (* the teardown actions of an owner: one if it has a Map, else none *)
  wf_disposables : ∀ o,
    filter (λ x, x.1 = o) (disposables w) =
    match registeredDebounces w !! o with
    | Some r => [(o, getDebouncesDisposable (Some r))]
    | None => []
    end;
  (* a stored callback closes over the Map and key it is stored under *)
  wf_closures : ∀ r m k p,
    heap w !! r = Some m → JsMap.get k (entries m) = Some p →
    closes_over w r k (debouncedTask p);
}.

End Debounce.

Arguments world S : clear implicits.

Notation "'let!' x ':=' m 'in' k" := (bind m (λ x, k))
  (at level 10, x pattern, m at level 100, k at level 200).
Notation "m ';;;' k" := (bind m (λ _, k))
  (at level 100, k at level 200, right associativity).

(** ** A run loop

    [debounce] and [cancel] are imported from [@ember/runloop] (line 2) and
    are not among the sources. The run loop below is what the module is
    run on wherever a statement needs to see timers fire. Time itself is
    left out: a waiting timer may expire at any moment. *)

Record timer := Timer {
  timer_id : nat;
  timer_target : nat;
  timer_method : closure;
  timer_args : list value;
  timer_wait : value;
}.

Record runloop := RunLoop {
  timers : list timer;
  next_timer : nat;
}.

Definition same_debouncee (target : nat) (method : closure) (t : timer) : Prop :=
  timer_target t = target ∧ timer_method t = method.

#[global] Instance same_debouncee_dec target method t :
  Decision (same_debouncee target method t).
Proof. unfold same_debouncee. apply _. Defined.

(** Modelled from the spec: [debounce] of [@ember/runloop], the Scheduler's
    request for a timer. A request for a callback that is already waiting
    on the same target replaces that timer (it restarts the window) and
    gets a new handle; the last argument is the wait, the ones before it
    are forwarded to the callback. *)
Definition runloop_debounce (target : nat) (method : closure)
    (debounceArgs : list value) (s : runloop) : runloop * nat :=
  let t := Timer (next_timer s) target method
                 (removelast debounceArgs) (List.last debounceArgs VUndefined) in
  (RunLoop (filter (λ t', ¬ same_debouncee target method t') (timers s) ++ [t])
           (Datatypes.S (next_timer s)),
   next_timer s).

(** Modelled from the spec: [cancel] of [@ember/runloop]. The timer no
    longer waits; cancelling a handle that has fired or was cancelled
    already is safe. *)
Definition runloop_cancel (id : nat) (s : runloop) : runloop * option exn :=
  (RunLoop (filter (λ t, timer_id t ≠ id) (timers s)) (next_timer s), None).

(** Modelled from the spec: the Scheduler firing a timer. A waiting
    callback is called once, with the forwarded arguments, and its timer is
    gone. *)
Definition runloop_expire (id : nat) (s : runloop)
    : option (runloop * (closure * list value)) :=
  match List.find (λ t, bool_decide (timer_id t = id)) (timers s) with
  | Some t =>
      Some (RunLoop (filter (λ t, timer_id t ≠ id) (timers s)) (next_timer s),
            (timer_method t, timer_args t))
  | None => None
  end.

#[global] Instance runloop_scheduler : Scheduler runloop := {
  sched_debounce := runloop_debounce;
  sched_cancel := runloop_cancel;
  sched_expire := runloop_expire;
  sched_init := RunLoop [] 0;
}.

(** A run loop whose [cancel] always raises; everything else as above. *)
Record failing_runloop := FailingRunLoop { failing_inner : runloop }.

#[global] Instance failing_scheduler : Scheduler failing_runloop := {
  sched_debounce target method args s :=
    let '(s', t) := runloop_debounce target method args (failing_inner s) in
    (FailingRunLoop s', t);
  sched_cancel id s := (s, Some (SchedulerError id));
  sched_expire id s :=
    match runloop_expire id (failing_inner s) with
    | Some (s', c) => Some (FailingRunLoop s', c)
    | None => None
    end;
  sched_init := FailingRunLoop (RunLoop [] 0);
}.

(** The timers waiting for the callback of [nameOrFunction] on [obj]. *)
Definition for_task (obj : nat) (nameOrFunction : value) (t : timer) : Prop :=
  cl_obj (timer_method t) = obj ∧ cl_nameOrFunction (timer_method t) = nameOrFunction.

#[global] Instance for_task_dec obj nameOrFunction t :
  Decision (for_task obj nameOrFunction t).
Proof. unfold for_task. apply _. Defined.

(** What holds of the run loop and the registry together: every waiting
    timer is the one recorded in the Map of its owner, and handles are
    issued once. *)
Record wf_timers (w : world runloop) : Prop := WFTimers {
  wft_recorded : ∀ t, t ∈ timers (scheduler w) →
    timer_target t = cl_obj (timer_method t)
    ∧ ∃ r, registeredDebounces w !! timer_target t = Some r
         ∧ JsMap.get (cl_nameOrFunction (timer_method t)) (entries (deref w r))
           = Some (MkPending (timer_method t) (timer_id t));
  wft_fresh : ∀ t, t ∈ timers (scheduler w) → timer_id t < next_timer (scheduler w);
  wft_nodup : NoDup (timer_id <$> timers (scheduler w));
  wft_issued : ∀ r k p,
    JsMap.get k (entries (deref w r)) = Some p →
    cancelId p < next_timer (scheduler w);
}.

(** ** A small application *)

(** Object 1 has a method [logMe], which is function 7. *)
Definition app_objects : gmap nat (gmap string value) :=
  {[ 1 := {[ "logMe"%string := VFunction 7 ]} ]}.

Definition app : world runloop := initial app_objects EmptyString.

Definition run {S A} (m : world S → world S * result A) (w : world S) : world S := (m w).1.

(** [debounceTask(obj, 'logMe', 300)] has been called once. *)
Definition app_pending : world runloop :=
  run (debounceTask 1 (VString "logMe") [VNumber 300]) app.

(** The same on a run loop whose [cancel] raises. *)
Definition app_failing : world failing_runloop :=
  run (debounceTask 1 (VString "logMe") [VNumber 300]) (initial app_objects EmptyString).

(** Handles are stored in one place: two entries never hold the same one. *)
Definition handles_unique (w : world runloop) : Prop :=
  ∀ r k p r' k' p',
    JsMap.get k (entries (deref w r)) = Some p →
    JsMap.get k' (entries (deref w r')) = Some p' →
    cancelId p = cancelId p' → r = r' ∧ k = k'.

(** Objects 1 and 2 each have a method [logMe]; [debounceTask] has been
    called once for each. *)
Definition two_objects : gmap nat (gmap string value) :=
  {[ 1 := {[ "logMe"%string := VFunction 7 ]};
     2 := {[ "logMe"%string := VFunction 9 ]} ]}.

Definition app_two : world runloop :=
  run (debounceTask 2 (VString "logMe") [VNumber 300])
    (run (debounceTask 1 (VString "logMe") [VNumber 300])
       (initial two_objects EmptyString)).

(** * Proofs *)

(** ** Lists *)

Section Lists.
Context {A : Type} (P : A → Prop) `{∀ x, Decision (P x)}.

Lemma filter_all (l : list A) :
  (∀ x, x ∈ l → P x) → filter P l = l.
Proof.
  induction l as [|x l IH]; intros HP; [done|].
  rewrite filter_cons_True by (apply HP, list_elem_of_here).
  f_equal. apply IH. intros y Hy. by apply HP, list_elem_of_further.
Qed.

Lemma filter_none (l : list A) :
  (∀ x, x ∈ l → ¬ P x) → filter P l = [].
Proof.
  induction l as [|x l IH]; intros HP; [done|].
  rewrite filter_cons_False by (apply HP, list_elem_of_here).
  apply IH. intros y Hy. by apply HP, list_elem_of_further.
Qed.

End Lists.

(** ** The built-in Map *)

Section JsMapFacts.
Context {K V : Type} `{EqDecision K}.
Implicit Types (k : K) (v : V) (m : list (K * V)).

Lemma get_set_eq k v m : JsMap.get k (JsMap.set k v m) = Some v.
Proof.
  induction m as [|[k' v'] m IH]; simpl.
  - by rewrite decide_True.
  - destruct (decide (k = k')) as [->|Hne]; simpl.
    + by rewrite decide_True.
    + by rewrite decide_False.
Qed.

Lemma get_set_ne k k' v m : k ≠ k' → JsMap.get k' (JsMap.set k v m) = JsMap.get k' m.
Proof.
  intros Hne. induction m as [|[k0 v0] m IH]; simpl.
  - by rewrite decide_False.
  - destruct (decide (k = k0)) as [->|Hne0]; simpl.
    + by rewrite !decide_False.
    + destruct (decide (k' = k0)); done.
Qed.

Lemma get_delete_eq k m : JsMap.get k (JsMap.delete k m) = None.
Proof.
  induction m as [|[k' v'] m IH]; simpl; [done|].
  destruct (decide (k = k')); simpl; [done|]. by rewrite decide_False.
Qed.

Lemma get_delete_ne k k' m : k ≠ k' → JsMap.get k' (JsMap.delete k m) = JsMap.get k' m.
Proof.
  intros Hne. induction m as [|[k0 v0] m IH]; simpl; [done|].
  destruct (decide (k = k0)) as [->|Hne0]; simpl.
  - by rewrite decide_False.
  - destruct (decide (k' = k0)); done.
Qed.

Lemma get_None_keys k m : JsMap.get k m = None ↔ k ∉ JsMap.keys m.
Proof.
  unfold JsMap.keys. induction m as [|[k' v'] m IH]; simpl.
  - split; [intros _; apply not_elem_of_nil | done].
  - rewrite not_elem_of_cons. destruct (decide (k = k')) as [->|Hne].
    + split; [done | by intros [? _]].
    + rewrite IH. split; [by intros ? | by intros [_ ?]].
Qed.

Lemma has_get k m : JsMap.has k m = true ↔ is_Some (JsMap.get k m).
Proof.
  unfold JsMap.has. destruct (JsMap.get k m); split; try done.
Qed.

Lemma keys_set_present k v m :
  is_Some (JsMap.get k m) → JsMap.keys (JsMap.set k v m) = JsMap.keys m.
Proof.
  unfold JsMap.keys. induction m as [|[k' v'] m IH]; simpl.
  - by intros [? ?].
  - destruct (decide (k = k')) as [->|Hne]; simpl; [done|].
    intros Hs. f_equal. by apply IH.
Qed.

Lemma keys_set_absent k v m :
  JsMap.get k m = None → JsMap.keys (JsMap.set k v m) = JsMap.keys m ++ [k].
Proof.
  unfold JsMap.keys. induction m as [|[k' v'] m IH]; simpl; [done|].
  destruct (decide (k = k')) as [->|Hne]; simpl; [done|].
  intros Hs. f_equal. by apply IH.
Qed.

Lemma NoDup_keys_set k v m :
  NoDup (JsMap.keys m) → NoDup (JsMap.keys (JsMap.set k v m)).
Proof.
  intros Hnd. destruct (JsMap.get k m) eqn:Hg.
  - by rewrite keys_set_present.
  - rewrite keys_set_absent by done.
    apply NoDup_app. split_and!; [done| |apply NoDup_singleton].
    intros x Hx ->%list_elem_of_singleton. by apply get_None_keys in Hg.
Qed.

Lemma keys_delete k m :
  JsMap.keys (JsMap.delete k m) = filter (λ k', k ≠ k') (JsMap.keys m).
Proof.
  unfold JsMap.keys. induction m as [|[k' v'] m IH]; simpl; [done|].
  destruct (decide (k = k')) as [->|Hne]; simpl.
  - rewrite filter_cons_False; [apply IH|]. by intros ?.
  - rewrite filter_cons_True by done. f_equal. apply IH.
Qed.

Lemma NoDup_keys_delete k m :
  NoDup (JsMap.keys m) → NoDup (JsMap.keys (JsMap.delete k m)).
Proof. rewrite keys_delete. apply NoDup_filter. Qed.

Lemma get_values k v m : JsMap.get k m = Some v → v ∈ JsMap.values m.
Proof.
  unfold JsMap.values. induction m as [|[k' v'] m IH]; simpl; [done|].
  destruct (decide (k = k')).
  - intros [= ->]. apply list_elem_of_here.
  - intros Hg. apply list_elem_of_further. by apply IH.
Qed.

Lemma NoDup_keys_filter (m : list (K * V)) (k : K) :
  NoDup (JsMap.keys m) → length (filter (λ e, e.1 = k) m) ≤ 1.
Proof.
  unfold JsMap.keys. induction m as [|[k' v] m IH]; simpl; [lia|].
  intros [Hnot Hnd]%NoDup_cons. destruct (decide (k' = k)) as [->|Hne].
  - rewrite filter_cons_True by done. simpl.
    rewrite filter_none; [simpl; lia|].
    intros [k0 v0] Hin Heq. simpl in Heq. subst k0.
    apply Hnot. apply list_elem_of_fmap. by exists (k, v0).
  - rewrite filter_cons_False by done. by apply IH.
Qed.

End JsMapFacts.

(** ** The module, for any run loop *)

Section Monad.
Context {S : Type}.
Implicit Types (w : world S).

Lemma bind_returned {A B} (m : M A) (k : A → M B) w w' a :
  m w = (w', Returned a) → bind m k w = k a w'.
Proof. intros Hm. unfold bind. by rewrite Hm. Qed.

Lemma bind_threw {A B} (m : M A) (k : A → M B) w w' e :
  m w = (w', Threw e) → bind m k w = (w', Threw e).
Proof. intros Hm. unfold bind. by rewrite Hm. Qed.

Lemma bind_ret_tt (m : M unit) (w : world S) : (m ;;; ret tt) w = m w.
Proof. unfold bind, ret. by destruct (m w) as [w' [[]|e]]. Qed.

End Monad.

(** Run a computation whose first part returns, one step on. *)
Ltac mret tac := erewrite bind_returned by tac; cbv beta iota.

Section Facts.
Context {S : Type} `{Scheduler S}.
Implicit Types (w : world S) (obj r t : nat) (k : value).

Lemma accepts_split w obj k :
  accepts w obj k = true ↔
  (is_string k || is_function k = true)
  ∧ (is_function k || is_function (member w obj k) = true)
  ∧ truthy (get_prop w obj "isDestroyed") = false.
Proof.
  unfold accepts. rewrite !andb_true_iff, negb_true_iff. tauto.
Qed.

Lemma debounceTask_rejects obj k a w :
  accepts w obj k = false →
  debounceTask obj k a w =
    (w, Threw (if negb (is_string k || is_function k)
               then AssertNotStringOrFunction
               else if negb (is_function k || is_function (member w obj k))
                    then AssertNotAFunction
                    else AssertDestroyed)).
Proof.
  unfold accepts, debounceTask, bind, assert, gets.
  destruct (is_string k || is_function k); simpl; [|done].
  destruct (is_function k || is_function (member w obj k)); simpl; [|done].
  destruct (truthy _); simpl; done.
Qed.

Lemma pendingDebounces_of_known obj r w :
  registeredDebounces w !! obj = Some r →
  pendingDebounces_of obj w = (w, Returned r).
Proof. intros Hr. unfold pendingDebounces_of, bind, gets. by rewrite Hr. Qed.

Lemma pendingDebounces_of_new obj w :
  registeredDebounces w !! obj = None →
  pendingDebounces_of obj w =
    (set_disposables (λ ds, ds ++ [(obj, getDebouncesDisposable (Some (length (heap w))))])
       (set_registeredDebounces (λ reg, <[obj := length (heap w)]> reg)
          (set_heap (λ h, h ++ [new_Map]) w)),
     Returned (length (heap w))).
Proof. intros Hr. unfold pendingDebounces_of, bind, gets. by rewrite Hr. Qed.

Lemma debounceTask_accepts obj k a w :
  accepts w obj k = true →
  debounceTask obj k a w =
    (let! r := pendingDebounces_of obj in
     let! pd := Map_get r k in
     let! c := match pd with
               | None => alloc_closure r obj k
               | Some p => ret (debouncedTask p)
               end in
     let! t := debounce obj c a in
     Map_set r k (MkPending c t)) w.
Proof.
  intros (H1 & H2 & H3)%accepts_split.
  unfold debounceTask, assert.
  rewrite H1. erewrite bind_returned by reflexivity.
  erewrite bind_returned; [|erewrite bind_returned by reflexivity; by rewrite H2].
  erewrite bind_returned; [|erewrite bind_returned by reflexivity; by rewrite H3].
  done.
Qed.

Lemma debounceTask_known_pending obj k a w r p :
  accepts w obj k = true →
  registeredDebounces w !! obj = Some r →
  JsMap.get k (entries (deref w r)) = Some p →
  debounceTask obj k a w =
    Map_set r k (MkPending (debouncedTask p)
                   (sched_debounce obj (debouncedTask p) a (scheduler w)).2)
      (set_scheduler (λ _, (sched_debounce obj (debouncedTask p) a (scheduler w)).1) w).
Proof.
  intros Ha Hr Hp. rewrite debounceTask_accepts by done.
  erewrite bind_returned by by apply pendingDebounces_of_known.
  erewrite bind_returned by (unfold Map_get, gets; by rewrite Hp).
  erewrite bind_returned by reflexivity.
  unfold bind, debounce. by destruct (sched_debounce _ _ _ _).
Qed.

Lemma debounceTask_known_fresh obj k a w r :
  accepts w obj k = true →
  registeredDebounces w !! obj = Some r →
  JsMap.get k (entries (deref w r)) = None →
  debounceTask obj k a w =
    Map_set r k
      (MkPending (Closure (next_closure w) r obj k)
         (sched_debounce obj (Closure (next_closure w) r obj k) a (scheduler w)).2)
      (set_scheduler
         (λ _, (sched_debounce obj (Closure (next_closure w) r obj k) a (scheduler w)).1)
         (set_next_closure Datatypes.S w)).
Proof.
  intros Ha Hr Hp. rewrite debounceTask_accepts by done.
  erewrite bind_returned by by apply pendingDebounces_of_known.
  erewrite bind_returned by (unfold Map_get, gets; by rewrite Hp).
  erewrite bind_returned by reflexivity.
  unfold bind, debounce. simpl. by destruct (sched_debounce _ _ _ _).
Qed.

Lemma debounceTask_new_owner obj k a w :
  accepts w obj k = true →
  registeredDebounces w !! obj = None →
  debounceTask obj k a w = debounceTask obj k a (pendingDebounces_of obj w).1.
Proof.
  intros Ha Hr. rewrite !debounceTask_accepts; [|by rewrite pendingDebounces_of_new|done].
  rewrite (pendingDebounces_of_new _ _ Hr). simpl.
  erewrite bind_returned by by apply pendingDebounces_of_new.
  symmetry. erewrite bind_returned; [done|].
  apply pendingDebounces_of_known. simpl. by rewrite lookup_insert_eq.
Qed.

(** ** Well-formedness is kept *)

Lemma deref_lookup w r m : heap w !! r = Some m → deref w r = m.
Proof. intros Hm. unfold deref. by rewrite Hm. Qed.

Lemma wf_frame w w' :
  registeredDebounces w' = registeredDebounces w →
  heap w' = heap w →
  next_closure w' = next_closure w →
  disposables w' = disposables w →
  wf w → wf w'.
Proof.
  intros Hreg Hheap Hnc Hd [H1 H2 H3 H4 H5].
  constructor; unfold closes_over in *; rewrite ?Hreg, ?Hheap, ?Hnc, ?Hd; done.
Qed.

Lemma wf_update_map w r m m' :
  wf w →
  heap w !! r = Some m →
  NoDup (JsMap.keys (entries m')) →
  (∀ k p, JsMap.get k (entries m') = Some p → closes_over w r k (debouncedTask p)) →
  wf (set_heap (λ h, <[r := m']> h) w).
Proof.
  intros [H1 H2 H3 H4 H5] Hm Hnd Hcl.
  assert (r < length (heap w)) as Hlt by by eapply lookup_lt_Some.
  constructor; simpl.
  - intros o r' Hr'. rewrite length_insert. by eapply H1.
  - done.
  - intros r' m0. destruct (decide (r = r')) as [<-|Hne].
    + rewrite list_lookup_insert_eq by done. by intros [= <-].
    + rewrite list_lookup_insert_ne by done. apply H3.
  - done.
  - intros r' m0 k p. destruct (decide (r = r')) as [<-|Hne].
    + rewrite list_lookup_insert_eq by done. intros [= <-]. apply Hcl.
    + rewrite list_lookup_insert_ne by done. apply H5.
Qed.

Lemma wf_next_closure w : wf w → wf (set_next_closure Datatypes.S w).
Proof.
  intros [H1 H2 H3 H4 H5]. constructor; simpl; try done.
  intros r m k p Hm Hg. destruct (H5 r m k p Hm Hg) as (?&?&?&?).
  unfold closes_over. simpl. split_and!; [done|done|lia|done].
Qed.

Lemma wf_pendingDebounces_of obj w : wf w → wf (pendingDebounces_of obj w).1.
Proof.
  intros Hwf. destruct (registeredDebounces w !! obj) as [r|] eqn:Hr.
  { by rewrite (pendingDebounces_of_known _ _ _ Hr). }
  rewrite (pendingDebounces_of_new _ _ Hr). simpl.
  destruct Hwf as [H1 H2 H3 H4 H5]. constructor; simpl.
  - intros o r. rewrite length_app. simpl. destruct (decide (obj = o)) as [<-|Hne].
    + rewrite lookup_insert_eq. intros [= <-]. lia.
    + rewrite lookup_insert_ne by done. intros ?%H1. lia.
  - intros o1 o2 r. destruct (decide (obj = o1)) as [<-|Hne1], (decide (obj = o2)) as [<-|Hne2];
      rewrite ?lookup_insert_eq, ?lookup_insert_ne by done; try done.
    + intros [= <-] ?%H1. lia.
    + intros ?%H1 [= <-]. lia.
    + apply H2.
  - intros r m [Hm|[_ [_ <-]%list_lookup_singleton_Some]]%lookup_app_Some; [by eapply H3|].
    simpl. apply NoDup_nil_2.
  - intros o. rewrite filter_app, H4. destruct (decide (obj = o)) as [<-|Hne].
    + rewrite lookup_insert_eq, Hr. simpl. by rewrite filter_cons_True.
    + rewrite lookup_insert_ne by done. rewrite filter_cons_False by done.
      by rewrite filter_nil, app_nil_r.
  - intros r m k p [Hm|[_ [_ <-]%list_lookup_singleton_Some]]%lookup_app_Some; [|done].
    intros Hg. destruct (H5 r m k p Hm Hg) as (?&?&?&Hreg).
    unfold closes_over. simpl. split_and!; [done..|].
    rewrite lookup_insert_ne; [done|]. congruence.
Qed.


Lemma heap_lookup_deref w o r :
  wf w → registeredDebounces w !! o = Some r → heap w !! r = Some (deref w r).
Proof.
  intros Hwf Hr. unfold deref.
  destruct (lookup_lt_is_Some_2 (heap w) r) as [m ->]; [|done].
  by eapply wf_refs.
Qed.

Lemma wf_Map_set w o r k p :
  wf w → registeredDebounces w !! o = Some r →
  closes_over w r k (debouncedTask p) →
  wf (Map_set r k p w).1.
Proof.
  intros Hwf Hr Hc. simpl.
  eapply wf_update_map; [done|by eapply heap_lookup_deref| |]; simpl.
  - apply NoDup_keys_set. eapply wf_keys; [done|by eapply heap_lookup_deref].
  - intros k' p'. destruct (decide (k = k')) as [<-|Hne].
    + rewrite get_set_eq. by intros [= <-].
    + rewrite get_set_ne by done. eapply wf_closures; [done|by eapply heap_lookup_deref].
Qed.

Lemma wf_Map_delete w o r k :
  wf w → registeredDebounces w !! o = Some r → wf (Map_delete r k w).1.
Proof.
  intros Hwf Hr. simpl.
  eapply wf_update_map; [done|by eapply heap_lookup_deref| |]; simpl.
  - apply NoDup_keys_delete. eapply wf_keys; [done|by eapply heap_lookup_deref].
  - intros k' p'. destruct (decide (k = k')) as [<-|Hne].
    + by rewrite get_delete_eq.
    + rewrite get_delete_ne by done. eapply wf_closures; [done|by eapply heap_lookup_deref].
Qed.

Lemma wf_delete_property w r name : wf w → wf (delete_property r name w).1.
Proof.
  intros Hwf. simpl. destruct (heap w !! r) as [m|] eqn:Hm.
  - eapply wf_update_map; [done..| |]; rewrite (deref_lookup _ _ _ Hm); simpl.
    + by eapply wf_keys.
    + intros k p. by eapply wf_closures.
  - eapply wf_frame; [..|done]; simpl; try done.
    apply list_insert_ge. by apply lookup_ge_None.
Qed.

Lemma accepts_same_objects w w' obj k :
  objects w' = objects w → accepts w' obj k = accepts w obj k.
Proof. intros Ho. unfold accepts, member, get_prop. by rewrite Ho. Qed.

Lemma pendingDebounces_of_fields obj w :
  ∃ r, pendingDebounces_of obj w = ((pendingDebounces_of obj w).1, Returned r)
     ∧ registeredDebounces (pendingDebounces_of obj w).1 !! obj = Some r
     ∧ objects (pendingDebounces_of obj w).1 = objects w
     ∧ window_name (pendingDebounces_of obj w).1 = window_name w
     ∧ next_closure (pendingDebounces_of obj w).1 = next_closure w
     ∧ scheduler (pendingDebounces_of obj w).1 = scheduler w
     ∧ calls (pendingDebounces_of obj w).1 = calls w.
Proof.
  destruct (registeredDebounces w !! obj) as [r|] eqn:Hr.
  - exists r. by rewrite (pendingDebounces_of_known _ _ _ Hr).
  - exists (length (heap w)). rewrite (pendingDebounces_of_new _ _ Hr). simpl.
    by rewrite lookup_insert_eq.
Qed.

(** An accepted call is the same call made once the owner has its Map. *)
Lemma debounceTask_owner_known obj k a w :
  accepts w obj k = true →
  debounceTask obj k a w = debounceTask obj k a (pendingDebounces_of obj w).1.
Proof.
  intros Ha. destruct (registeredDebounces w !! obj) as [r|] eqn:Hr.
  - by rewrite (pendingDebounces_of_known _ _ _ Hr).
  - by apply debounceTask_new_owner.
Qed.

Lemma wf_debounceTask obj k a w : wf w → wf (debounceTask obj k a w).1.
Proof.
  intros Hwf. destruct (accepts w obj k) eqn:Ha.
  2: { by rewrite debounceTask_rejects. }
  rewrite debounceTask_owner_known by done.
  destruct (pendingDebounces_of_fields obj w) as (r & _ & Hr & Ho & _).
  apply (wf_pendingDebounces_of obj) in Hwf.
  rewrite <- (accepts_same_objects _ _ obj k Ho) in Ha.
  set (w1 := (pendingDebounces_of obj w).1) in *. clearbody w1.
  destruct (JsMap.get k (entries (deref w1 r))) as [p|] eqn:Hp.
  - rewrite (debounceTask_known_pending _ _ _ _ _ _ Ha Hr Hp).
    eapply wf_Map_set; [by eapply wf_frame, Hwf|done|]. simpl.
    eapply (wf_closures _ Hwf); [by eapply heap_lookup_deref|done].
  - rewrite (debounceTask_known_fresh _ _ _ _ _ Ha Hr Hp).
    eapply wf_Map_set; [by eapply wf_frame, wf_next_closure, Hwf|done|].
    unfold closes_over. simpl. split_and!; [done|done|lia|done].
Qed.

Lemma cancelDebounce_no_Map obj k w :
  registeredDebounces w !! obj = None → cancelDebounce obj k w = (w, Returned tt).
Proof.
  intros Hr. unfold cancelDebounce.
  by mret ltac:(unfold gets; by rewrite Hr).
Qed.

Lemma cancelDebounce_no_entry obj k w r :
  registeredDebounces w !! obj = Some r →
  JsMap.get k (entries (deref w r)) = None →
  cancelDebounce obj k w = (w, Returned tt).
Proof.
  intros Hr Hp. unfold cancelDebounce.
  mret ltac:(unfold gets; by rewrite Hr).
  by mret ltac:(unfold Map_has, gets, JsMap.has; by rewrite Hp).
Qed.

Lemma cancelDebounce_pending obj k w r p :
  registeredDebounces w !! obj = Some r →
  JsMap.get k (entries (deref w r)) = Some p →
  cancelDebounce obj k w = cancel (cancelId p) (Map_delete r k w).1.
Proof.
  intros Hr Hp. unfold cancelDebounce.
  mret ltac:(unfold gets; by rewrite Hr).
  mret ltac:(unfold Map_has, gets, JsMap.has; by rewrite Hp).
  cbn [negb].
  mret ltac:(unfold Map_get, gets; by rewrite Hp).
  by mret ltac:(reflexivity).
Qed.

Lemma cancel_world t w :
  (cancel t w).1 = set_scheduler (λ _, (sched_cancel t (scheduler w)).1) w.
Proof. unfold cancel. by destruct (sched_cancel t (scheduler w)). Qed.

Lemma wf_cancelDebounce obj k w : wf w → wf (cancelDebounce obj k w).1.
Proof.
  intros Hwf. destruct (registeredDebounces w !! obj) as [r|] eqn:Hr.
  2: { by rewrite cancelDebounce_no_Map. }
  destruct (JsMap.get k (entries (deref w r))) as [p|] eqn:Hp.
  2: { by erewrite cancelDebounce_no_entry. }
  erewrite cancelDebounce_pending, cancel_world by done.
  eapply wf_frame; [..|by eapply (wf_Map_delete w obj r k)]; done.
Qed.

Lemma call_debouncedTask_world c args w :
  ∃ cs, (call_debouncedTask c args w).1 =
        set_calls (λ _, cs) (delete_property (cl_pendingDebounces c) (window_name w) w).1.
Proof.
  unfold call_debouncedTask, bind, gets, apply_function, modify, throw. simpl.
  destruct (cl_nameOrFunction c); simpl; try destruct (get_prop _ _ _); simpl;
    eexists; reflexivity.
Qed.

Lemma wf_call_debouncedTask c args w : wf w → wf (call_debouncedTask c args w).1.
Proof.
  intros Hwf. destruct (call_debouncedTask_world c args w) as [cs ->].
  eapply wf_frame; [..|by eapply wf_delete_property]; done.
Qed.

Lemma wf_expire t w : wf w → wf (expire t w).1.
Proof.
  intros Hwf. unfold expire. destruct (sched_expire t (scheduler w)) as [[s [c args]]|]; [|done].
  apply wf_call_debouncedTask. by eapply wf_frame, Hwf.
Qed.

Lemma cancel_each_world ps w :
  ∃ s, (cancel_each ps w).1 = set_scheduler (λ _, s) w.
Proof.
  revert w. induction ps as [|p ps IH]; intros w; simpl.
  - exists (scheduler w). by destruct w.
  - unfold bind, cancel. destruct (sched_cancel _ _) as [s [e|]]; simpl.
    + by exists s.
    + destruct (IH (set_scheduler (λ _, s) w)) as [s' ->]. by exists s'.
Qed.

Lemma run_disposable_world d w :
  ∃ s, (run_disposable d w).1 = set_scheduler (λ _, s) w.
Proof.
  unfold run_disposable. destruct (debounces d) as [r|].
  - unfold bind, gets. apply cancel_each_world.
  - exists (scheduler w). by destruct w.
Qed.

Lemma wf_run_disposable d w : wf w → wf (run_disposable d w).1.
Proof.
  intros Hwf. destruct (run_disposable_world d w) as [s ->]. by eapply wf_frame, Hwf.
Qed.

Lemma wf_step w w' : wf w → step w w' → wf w'.
Proof.
  intros Hwf Hstep. destruct Hstep.
  - by apply wf_debounceTask.
  - by apply wf_cancelDebounce.
  - by apply wf_expire.
  - by apply wf_run_disposable.
  - by eapply wf_frame, Hwf.
Qed.

Lemma wf_initial objs name : wf (initial objs name).
Proof.
  constructor; simpl; done.
Qed.

Lemma reachable_wf w : reachable w → wf w.
Proof. induction 1; [apply wf_initial | by eapply wf_step]. Qed.

Lemma entries_delete_property (w : world S) r name r' :
  entries (deref (delete_property r name w).1 r') = entries (deref w r').
Proof.
  unfold deref. simpl. destruct (decide (r = r')) as [<-|Hne].
  - destruct (heap w !! r) as [m|] eqn:Hm.
    + rewrite list_lookup_insert_eq by by eapply lookup_lt_Some.
      simpl. by rewrite (deref_lookup _ _ _ Hm).
    + rewrite list_insert_ge by by apply lookup_ge_None. by rewrite Hm.
  - by rewrite list_lookup_insert_ne.
Qed.

(** The fired callback leaves every Map entry where it is. *)
Lemma entries_call_debouncedTask c args (w : world S) r :
  entries (deref (call_debouncedTask c args w).1 r) = entries (deref w r).
Proof.
  destruct (call_debouncedTask_world c args w) as [cs ->].
  apply (entries_delete_property w).
Qed.

Lemma entries_Map_set (w : world S) r k p r' :
  r < length (heap w) →
  entries (deref (Map_set r k p w).1 r') =
    if decide (r = r') then JsMap.set k p (entries (deref w r))
    else entries (deref w r').
Proof.
  intros Hlt. unfold deref at 1. simpl. destruct (decide (r = r')) as [<-|Hne].
  - by rewrite list_lookup_insert_eq.
  - by rewrite list_lookup_insert_ne.
Qed.

Lemma entries_Map_delete (w : world S) r k r' :
  r < length (heap w) →
  entries (deref (Map_delete r k w).1 r') =
    if decide (r = r') then JsMap.delete k (entries (deref w r))
    else entries (deref w r').
Proof.
  intros Hlt. unfold deref at 1. simpl. destruct (decide (r = r')) as [<-|Hne].
  - by rewrite list_lookup_insert_eq.
  - by rewrite list_lookup_insert_ne.
Qed.

Lemma deref_pendingDebounces_of obj (w : world S) r :
  deref (pendingDebounces_of obj w).1 r = deref w r.
Proof.
  destruct (registeredDebounces w !! obj) as [r0|] eqn:Hr.
  { by rewrite (pendingDebounces_of_known _ _ _ Hr). }
  rewrite (pendingDebounces_of_new _ _ Hr). unfold deref. simpl.
  destruct (decide (r < length (heap w))) as [Hlt|Hge].
  - by rewrite lookup_app_l.
  - rewrite lookup_app_r by lia. rewrite (lookup_ge_None_2 (heap w) r) by lia.
    by destruct (r - length (heap w)).
Qed.

Lemma closes_over_owner (w : world S) obj r k c :
  wf w → registeredDebounces w !! obj = Some r →
  closes_over w r k c → cl_obj c = obj ∧ cl_nameOrFunction c = k.
Proof.
  intros Hwf Hr (_ & Hk & _ & Hreg). split; [|done]. by eapply wf_inj.
Qed.

Lemma registeredDebounces_call_debouncedTask c args (w : world S) :
  registeredDebounces (call_debouncedTask c args w).1 = registeredDebounces w
  ∧ scheduler (call_debouncedTask c args w).1 = scheduler w
  ∧ objects (call_debouncedTask c args w).1 = objects w
  ∧ next_closure (call_debouncedTask c args w).1 = next_closure w.
Proof. by destruct (call_debouncedTask_world c args w) as [cs ->]. Qed.

Lemma debounceTask_returns obj k a w :
  accepts w obj k = true → (debounceTask obj k a w).2 = Returned tt.
Proof.
  intros Ha. rewrite debounceTask_owner_known by done.
  destruct (pendingDebounces_of_fields obj w) as (r & _ & Hr & Ho & _).
  rewrite <- (accepts_same_objects _ _ obj k Ho) in Ha.
  destruct (JsMap.get k (entries (deref (pendingDebounces_of obj w).1 r))) as [p|] eqn:Hp.
  - by rewrite (debounceTask_known_pending _ _ _ _ _ _ Ha Hr Hp).
  - by rewrite (debounceTask_known_fresh _ _ _ _ _ Ha Hr Hp).
Qed.

Lemma get_Some_valid w r k p :
  JsMap.get k (entries (deref w r)) = Some p → r < length (heap w).
Proof.
  unfold deref. destruct (heap w !! r) as [m|] eqn:Hm; [|done].
  intros _. by eapply lookup_lt_Some.
Qed.

(** The fired callback calls the function its task stands for at that
    moment, on the owner, with the arguments it is given. *)
Lemma call_debouncedTask_calls c args (w : world S) f :
  task_function w (cl_obj c) (cl_nameOrFunction c) = VFunction f →
  (call_debouncedTask c args w).2 = Returned tt
  ∧ calls (call_debouncedTask c args w).1 = calls w ++ [Call (cl_obj c) f args].
Proof.
  unfold task_function, call_debouncedTask, bind, gets, apply_function, modify. simpl.
  unfold member, get_prop. simpl.
  destruct (cl_nameOrFunction c); simpl; try done.
  - intros ->. done.
  - by intros [= ->].
Qed.

Lemma accepts_task_function (w : world S) obj k :
  accepts w obj k = true → ∃ f, task_function w obj k = VFunction f.
Proof.
  intros (H1 & H2 & _)%accepts_split. unfold task_function, is_function, is_string in *.
  destruct k; simpl in *; try done; [|by eexists].
  destruct (get_prop w obj s); try done. by eexists.
Qed.

(** Calls in a row end with the last one, made in a state that can be
    reached and that the calls before it have not changed for the
    application. *)
Lemma debounceTask_each_last obj k argss a (w : world S) :
  reachable w → accepts w obj k = true →
  ∃ w0 : world S, reachable w0 ∧ objects w0 = objects w ∧ calls w0 = calls w
        ∧ debounceTask_each obj k (argss ++ [a]) w = debounceTask obj k a w0.
Proof.
  revert w. induction argss as [|a0 rest IH]; intros w Hreach Ha.
  - exists w. split_and!; [done..|]. apply bind_ret_tt.
  - assert (accepts (debounceTask obj k a0 w).1 obj k = true
            ∧ calls (debounceTask obj k a0 w).1 = calls w
            ∧ objects (debounceTask obj k a0 w).1 = objects w) as (Ha1 & Hc1 & Ho1).
    { rewrite debounceTask_owner_known by done.
      destruct (pendingDebounces_of_fields obj w) as (r & _ & Hr & Ho & _ & _ & _ & Hc).
      pose proof Ha as Ha'. rewrite <- (accepts_same_objects _ _ obj k Ho) in Ha'.
      destruct (JsMap.get k (entries (deref (pendingDebounces_of obj w).1 r))) as [p|] eqn:Hp.
      - rewrite (debounceTask_known_pending _ _ _ _ _ _ Ha' Hr Hp). simpl.
        split_and!; [|done..]. by rewrite <- Ha; apply accepts_same_objects.
      - rewrite (debounceTask_known_fresh _ _ _ _ _ Ha' Hr Hp). simpl.
        split_and!; [|done..]. by rewrite <- Ha; apply accepts_same_objects. }
    destruct (IH (debounceTask obj k a0 w).1) as (w0 & Hreach0 & Ho0 & Hc0 & Heq); [|done|].
    { eapply reachable_step; [done|]. apply step_debounceTask. }
    exists w0. split_and!; [done|congruence|congruence|].
    rewrite <- Heq. simpl.
    pose proof (debounceTask_returns obj k a0 w Ha) as Hret.
    destruct (debounceTask obj k a0 w) as [w1 res] eqn:Hd. simpl in Hret. subst res.
    by erewrite bind_returned by done.
Qed.

End Facts.

(** ** What the module guarantees, for any run loop *)

Section Claims.
Context {S : Type} `{Scheduler S}.
Implicit Types (w : world S) (obj r : nat) (k : value).

(** C4. When the owner has no Map, or its Map has no entry for the task
    identity, [cancelDebounce] returns normally and the whole state is as
    it was: nothing is raised, nothing is changed. *)
Theorem cancelDebounce_absent_is_noop obj k w :
  (registeredDebounces w !! obj = None
   ∨ ∃ r, registeredDebounces w !! obj = Some r
          ∧ JsMap.get k (entries (deref w r)) = None) →
  cancelDebounce obj k w = (w, Returned tt).
Proof.
  intros [Hr|(r & Hr & Hp)].
  - by apply cancelDebounce_no_Map.
  - by eapply cancelDebounce_no_entry.
Qed.

(** C5, with [assert] raising on a failed check as the spec has it. When
    the task identity is neither a string nor a function, or is a string
    that does not name a function member of the owner, or the owner is
    destroyed, [debounceTask] throws and the whole state is as it was (no
    Map, no entry, no teardown action, no timer). A bad identity gives an
    InvalidArgumentError (the first or the second assert); a destroyed
    owner with a good identity gives the InvalidStateError (the third). *)
Theorem debounceTask_invalid_aborts obj k a w :
  (typeof k ≠ TString ∧ typeof k ≠ TFunction)
  ∨ (typeof k = TString ∧ typeof (member w obj k) ≠ TFunction)
  ∨ truthy (get_prop w obj "isDestroyed") = true →
  ∃ e, debounceTask obj k a w = (w, Threw e)
       ∧ (InvalidArgumentError e ∨ InvalidStateError e)
       ∧ (typeof k ≠ TString ∧ typeof k ≠ TFunction → e = AssertNotStringOrFunction)
       ∧ (typeof k = TString ∧ typeof (member w obj k) ≠ TFunction → e = AssertNotAFunction)
       ∧ (typeof k = TFunction ∨ (typeof k = TString ∧ typeof (member w obj k) = TFunction) →
          e = AssertDestroyed).
Proof.
  intros Hbad.
  assert (accepts w obj k = false) as Hrej.
  { unfold accepts, is_string, is_function.
    destruct Hbad as [[H1 H2]|[[H1 H2]|H3]].
    - rewrite (bool_decide_eq_false_2 (typeof k = TString)) by done.
      by rewrite (bool_decide_eq_false_2 (typeof k = TFunction)) by done.
    - rewrite (bool_decide_eq_false_2 (typeof k = TFunction)) by congruence.
      rewrite (bool_decide_eq_false_2 (typeof (member w obj k) = TFunction)) by done.
      by rewrite andb_false_r.
    - rewrite H3. by rewrite andb_false_r. }
  eexists. split; [by apply debounceTask_rejects|].
  unfold is_string, is_function, InvalidArgumentError, InvalidStateError.
  destruct (decide (typeof k = TString)) as [Hs|Hs],
           (decide (typeof k = TFunction)) as [Hf|Hf],
           (decide (typeof (member w obj k) = TFunction)) as [Hm|Hm];
    rewrite ?(bool_decide_eq_true_2 _ Hs), ?(bool_decide_eq_true_2 _ Hf),
      ?(bool_decide_eq_true_2 _ Hm), ?(bool_decide_eq_false_2 _ Hs),
      ?(bool_decide_eq_false_2 _ Hf), ?(bool_decide_eq_false_2 _ Hm); simpl;
    intuition congruence.
Qed.


(** C3. With a debounce pending for the task on the owner,
    [cancelDebounce] asks the run loop to cancel the stored handle and
    removes the entry (and only that entry) from the owner's Map. A call
    of [debounceTask] for the same pair after it makes a new callback,
    different from the cancelled one, requests a timer for it and stores
    both. *)
Theorem cancelDebounce_pending_starts_afresh obj k a w r p :
  wf w →
  registeredDebounces w !! obj = Some r →
  JsMap.get k (entries (deref w r)) = Some p →
  let w1 := (cancelDebounce obj k w).1 in
  scheduler w1 = (sched_cancel (cancelId p) (scheduler w)).1
  ∧ JsMap.get k (entries (deref w1 r)) = None
  ∧ (∀ k', k' ≠ k →
       JsMap.get k' (entries (deref w1 r)) = JsMap.get k' (entries (deref w r)))
  ∧ (accepts w1 obj k = true →
     let c := Closure (next_closure w1) r obj k in
     let w2 := (debounceTask obj k a w1).1 in
     c ≠ debouncedTask p
     ∧ next_closure w2 = Datatypes.S (next_closure w1)
     ∧ scheduler w2 = (sched_debounce obj c a (scheduler w1)).1
     ∧ JsMap.get k (entries (deref w2 r))
       = Some (MkPending c (sched_debounce obj c a (scheduler w1)).2)).
Proof.
  intros Hwf Hr Hp w1.
  assert (r < length (heap w)) as Hlt by by eapply get_Some_valid.
  assert (w1 = set_scheduler (λ _, (sched_cancel (cancelId p) (scheduler w)).1)
                 (Map_delete r k w).1) as Hw1.
  { unfold w1. by rewrite (cancelDebounce_pending _ _ _ _ _ Hr Hp), cancel_world. }
  assert (∀ r', entries (deref w1 r') = entries (deref (Map_delete r k w).1 r')) as Hent.
  { intros r'. by rewrite Hw1. }
  assert (JsMap.get k (entries (deref w1 r)) = None) as Hgone.
  { rewrite Hent, entries_Map_delete, decide_True by done. apply get_delete_eq. }
  split_and!.
  - by rewrite Hw1.
  - done.
  - intros k' Hne. rewrite Hent, entries_Map_delete, decide_True by done.
    by apply get_delete_ne.
  - intros Ha c w2.
    assert (registeredDebounces w1 !! obj = Some r) as Hr1 by by rewrite Hw1.
    assert (r < length (heap w1)) as Hlt1.
    { rewrite Hw1. simpl. by rewrite length_insert. }
    split.
    { intros Hc. destruct (wf_closures _ Hwf r (deref w r) k p) as (_ & _ & Hid & _);
        [by eapply heap_lookup_deref|done|].
      rewrite <- Hc in Hid. simpl in Hid. rewrite Hw1 in Hid. simpl in Hid. lia. }
    unfold w2. rewrite (debounceTask_known_fresh _ _ _ _ _ Ha Hr1 Hgone). fold c.
    split_and!; [done..|].
    rewrite entries_Map_set, decide_True by done. apply get_set_eq.
Qed.

(** C10. With a debounce pending, [cancelDebounce] is the run loop's
    [cancel] of the stored handle run in the state where the entry has
    already been deleted and the run loop has not been asked anything
    yet. So the entry is absent when [cancel] runs, [cancel] does not touch
    the Maps, and when [cancel] raises the error the entry is gone all the
    same. *)
Theorem cancelDebounce_deletes_before_cancel obj k w r p :
  registeredDebounces w !! obj = Some r →
  JsMap.get k (entries (deref w r)) = Some p →
  let w_deleted := (Map_delete r k w).1 in
  JsMap.get k (entries (deref w_deleted r)) = None
  ∧ scheduler w_deleted = scheduler w
  ∧ cancelDebounce obj k w = cancel (cancelId p) w_deleted
  ∧ heap (cancelDebounce obj k w).1 = heap w_deleted
  ∧ (∀ e, (sched_cancel (cancelId p) (scheduler w)).2 = Some e →
       (cancelDebounce obj k w).2 = Threw e
       ∧ JsMap.get k (entries (deref (cancelDebounce obj k w).1 r)) = None).
Proof.
  intros Hr Hp w_deleted.
  assert (r < length (heap w)) as Hlt by by eapply get_Some_valid.
  assert (JsMap.get k (entries (deref w_deleted r)) = None) as Hgone.
  { unfold w_deleted. rewrite entries_Map_delete, decide_True by done. apply get_delete_eq. }
  rewrite (cancelDebounce_pending _ _ _ _ _ Hr Hp). fold w_deleted.
  split_and!; [done|done|done|by rewrite cancel_world|].
  intros e He. split.
  - unfold cancel. change (scheduler w_deleted) with (scheduler w).
    destruct (sched_cancel (cancelId p) (scheduler w)) as [s res]. simpl in He. by subst res.
  - by rewrite cancel_world.
Qed.

(** C7. In every state the program can reach, an owner has exactly one
    teardown action registered if it has a Map and none otherwise. It is
    registered by the accepted [debounceTask] call that creates the Map;
    a [debounceTask] call for an owner that has its Map, and any
    [cancelDebounce] call, registers nothing. *)
Theorem teardown_registered_once w :
  reachable w →
  (∀ o, filter (λ x, x.1 = o) (disposables w) =
        match registeredDebounces w !! o with
        | Some r => [(o, getDebouncesDisposable (Some r))]
        | None => []
        end)
  ∧ (∀ obj k a, registeredDebounces w !! obj = None → accepts w obj k = true →
       disposables (debounceTask obj k a w).1 =
       disposables w ++ [(obj, getDebouncesDisposable (Some (length (heap w))))])
  ∧ (∀ obj k a, is_Some (registeredDebounces w !! obj) →
       disposables (debounceTask obj k a w).1 = disposables w)
  ∧ (∀ obj k, disposables (cancelDebounce obj k w).1 = disposables w).
Proof.
  intros Hreach. split_and!.
  - apply wf_disposables. by apply reachable_wf.
  - intros obj k a Hr Ha. rewrite debounceTask_owner_known by done.
    destruct (pendingDebounces_of_fields obj w) as (r & _ & Hr1 & Ho & _).
    rewrite <- (accepts_same_objects _ _ obj k Ho) in Ha.
    destruct (JsMap.get k (entries (deref (pendingDebounces_of obj w).1 r))) as [p|] eqn:Hp.
    + rewrite (debounceTask_known_pending _ _ _ _ _ _ Ha Hr1 Hp). simpl.
      by rewrite (pendingDebounces_of_new _ _ Hr).
    + rewrite (debounceTask_known_fresh _ _ _ _ _ Ha Hr1 Hp). simpl.
      by rewrite (pendingDebounces_of_new _ _ Hr).
  - intros obj k a [r Hr]. destruct (accepts w obj k) eqn:Ha.
    2: { by rewrite debounceTask_rejects. }
    destruct (JsMap.get k (entries (deref w r))) as [p|] eqn:Hp.
    + by rewrite (debounceTask_known_pending _ _ _ _ _ _ Ha Hr Hp).
    + by rewrite (debounceTask_known_fresh _ _ _ _ _ Ha Hr Hp).
  - intros obj k. destruct (registeredDebounces w !! obj) as [r|] eqn:Hr.
    2: { by rewrite cancelDebounce_no_Map. }
    destruct (JsMap.get k (entries (deref w r))) as [p|] eqn:Hp.
    2: { by erewrite cancelDebounce_no_entry. }
    by rewrite (cancelDebounce_pending _ _ _ _ _ Hr Hp), cancel_world.
Qed.

(** C8. In every state reached by calls of [debounceTask] and
    [cancelDebounce], fired callbacks, teardown actions and assignments,
    the Map of an owner holds each task identity at most once, and no
    other owner has that Map. *)
Theorem pending_debounce_unique w :
  reachable w →
  ∀ obj r, registeredDebounces w !! obj = Some r →
    NoDup (JsMap.keys (entries (deref w r)))
    ∧ (∀ k, length (filter (λ e, e.1 = k) (entries (deref w r))) ≤ 1)
    ∧ (∀ obj', registeredDebounces w !! obj' = Some r → obj' = obj).
Proof.
  intros Hwf%reachable_wf obj r Hr.
  assert (NoDup (JsMap.keys (entries (deref w r)))) as Hnd.
  { eapply wf_keys; [done|]. by eapply heap_lookup_deref. }
  split_and!; [done| |].
  - intros k. by apply NoDup_keys_filter.
  - intros obj' Hr'. by eapply wf_inj.
Qed.

End Claims.

(** ** The module on the run loop above *)

Section RunLoop.
Implicit Types (w : world runloop) (obj r : nat) (k : value) (t : timer).

Lemma set_scheduler_id w : set_scheduler (λ s, s) w = w.
Proof. by destruct w. Qed.

(** The loop of the teardown action, on this run loop: the timers whose
    handle is among those cancelled are gone, the others stay. *)
Lemma cancel_each_runloop ps w :
  cancel_each ps w =
    (set_scheduler
       (λ s, RunLoop (filter (λ t, timer_id t ∉ cancelId <$> ps) (timers s)) (next_timer s)) w,
     Returned tt).
Proof.
  revert w. induction ps as [|p ps IH]; intros w; simpl.
  - unfold ret. f_equal. destruct w as [? ? ? ? ? ? [ts n] ?]. unfold set_scheduler. simpl.
    rewrite filter_all; [done|]. intros t _. apply not_elem_of_nil.
  - erewrite bind_returned by reflexivity. rewrite IH.
    f_equal. unfold set_scheduler. simpl. f_equal. f_equal.
    rewrite list_filter_filter. apply list_filter_iff.
    intros t. rewrite not_elem_of_cons. tauto.
Qed.

(** *** Timers and registry agree *)

Lemma wf_timers_frame w w' :
  registeredDebounces w' = registeredDebounces w →
  (∀ r, entries (deref w' r) = entries (deref w r)) →
  scheduler w' = scheduler w →
  wf_timers w → wf_timers w'.
Proof.
  intros Hreg Hent Hs [H1 H2 H3 H4].
  constructor; rewrite ?Hs, ?Hreg; try done.
  - intros t Ht. destruct (H1 t Ht) as [? (r & ? & ?)]. split; [done|].
    exists r. by rewrite Hent.
  - intros r k p. rewrite Hent. apply H4.
Qed.

(** Timers leaving the run loop (fired or cancelled) keep the agreement. *)
Lemma wf_timers_fewer w w' (P : timer → Prop) `{∀ t, Decision (P t)} :
  registeredDebounces w' = registeredDebounces w →
  (∀ r, entries (deref w' r) = entries (deref w r)) →
  timers (scheduler w') = filter P (timers (scheduler w)) →
  next_timer (scheduler w') = next_timer (scheduler w) →
  wf_timers w → wf_timers w'.
Proof.
  intros Hreg Hent Hts Hn [H1 H2 H3 H4].
  constructor; rewrite ?Hts, ?Hn, ?Hreg.
  - intros t [_ Ht]%list_elem_of_filter. destruct (H1 t Ht) as [? (r & ? & ?)].
    split; [done|]. exists r. by rewrite Hent.
  - intros t [_ Ht]%list_elem_of_filter. by apply H2.
  - eapply sublist_NoDup; [done|]. apply fmap_sublist, sublist_filter.
  - intros r k p. rewrite Hent. apply H4.
Qed.

Lemma wf_timers_pendingDebounces_of obj w :
  wf_timers w → wf_timers (pendingDebounces_of obj w).1.
Proof.
  intros [H1 H2 H3 H4].
  destruct (pendingDebounces_of_fields obj w) as (r0 & _ & Hr0 & _ & _ & _ & Hs & _).
  constructor; rewrite ?Hs; try done.
  - intros t Ht. destruct (H1 t Ht) as [? (r & Hr & Hg)]. split; [done|].
    exists r. rewrite deref_pendingDebounces_of. split; [|done].
    destruct (registeredDebounces w !! obj) as [r1|] eqn:Hobj.
    + by rewrite (pendingDebounces_of_known _ _ _ Hobj).
    + rewrite (pendingDebounces_of_new _ _ Hobj). simpl.
      rewrite lookup_insert_ne; [done|]. congruence.
  - intros r k p. rewrite deref_pendingDebounces_of. apply H4.
Qed.

(** A request for callback [c] of key [k], recorded under [k]. *)
Lemma wf_timers_schedule w obj r k c a :
  wf w → wf_timers w →
  registeredDebounces w !! obj = Some r →
  cl_obj c = obj → cl_nameOrFunction c = k →
  (∀ t, t ∈ timers (scheduler w) → for_task obj k t → timer_method t = c) →
  wf_timers
    (Map_set r k (MkPending c (sched_debounce obj c a (scheduler w)).2)
       (set_scheduler (λ _, (sched_debounce obj c a (scheduler w)).1) w)).1.
Proof.
  intros Hwf [H1 H2 H3 H4] Hr Hobj Hk Hsame. subst obj k.
  assert (r < length (heap w)) as Hlt by by eapply wf_refs.
  constructor.
  - intros t Ht. simpl in Ht.
    apply elem_of_app in Ht as [[Hns Ht]%list_elem_of_filter | ->%list_elem_of_singleton].
    + destruct (H1 t Ht) as [Htgt (r' & Hr' & Hg)]. split; [done|].
      exists r'. split; [done|]. rewrite entries_Map_set by done.
      destruct (decide (r = r')) as [<-|Hne]; [|done].
      assert (timer_target t = cl_obj c) as Hto by by eapply wf_inj.
      destruct (decide (cl_nameOrFunction c = cl_nameOrFunction (timer_method t))) as [Hkk|Hkk].
      * exfalso. apply Hns. split; [done|]. apply Hsame; [done|].
        split; congruence.
      * by rewrite get_set_ne.
    + split; [done|]. exists r. split; [done|].
      rewrite entries_Map_set by done. rewrite decide_True by done.
      cbn [timer_method]. by rewrite get_set_eq.
  - intros t Ht. simpl in Ht. simpl.
    apply elem_of_app in Ht as [[_ Ht%H2]%list_elem_of_filter | ->%list_elem_of_singleton].
    + lia.
    + simpl. lia.
  - simpl. rewrite fmap_app. apply NoDup_app. split_and!.
    + eapply sublist_NoDup; [done|]. apply fmap_sublist, sublist_filter.
    + intros i (t & -> & [_ Ht%H2]%list_elem_of_filter)%list_elem_of_fmap.
      intros Heq%list_elem_of_singleton. simpl in Heq. lia.
    + apply NoDup_singleton.
  - intros r' k' p. rewrite entries_Map_set by done. simpl.
    destruct (decide (r = r')) as [<-|Hne].
    + destruct (decide (cl_nameOrFunction c = k')) as [<-|Hkk].
      * rewrite get_set_eq. intros [= <-]. simpl. lia.
      * rewrite get_set_ne by done. intros ?%H4. lia.
    + intros ?%H4. lia.
Qed.

Lemma wf_timers_cancel w obj r k p :
  wf w → wf_timers w →
  registeredDebounces w !! obj = Some r →
  JsMap.get k (entries (deref w r)) = Some p →
  wf_timers (cancel (cancelId p) (Map_delete r k w).1).1.
Proof.
  intros Hwf [H1 H2 H3 H4] Hr Hp.
  assert (r < length (heap w)) as Hlt by by eapply wf_refs.
  constructor.
  - intros t [Hid Ht]%list_elem_of_filter.
    destruct (H1 t Ht) as [Htgt (r' & Hr' & Hg)]. split; [done|].
    exists r'. split; [done|].
    change (deref (cancel (cancelId p) (Map_delete r k w).1).1 r')
      with (deref (Map_delete r k w).1 r').
    rewrite entries_Map_delete by done.
    destruct (decide (r = r')) as [<-|Hne]; [|done].
    destruct (decide (k = cl_nameOrFunction (timer_method t))) as [Hkk|Hkk].
    + exfalso. apply Hid. rewrite <- Hkk, Hp in Hg. by injection Hg as ->.
    + by rewrite get_delete_ne.
  - intros t [_ Ht]%list_elem_of_filter. by apply H2.
  - simpl. eapply sublist_NoDup; [done|]. apply fmap_sublist, sublist_filter.
  - intros r' k' p'.
    change (deref (cancel (cancelId p) (Map_delete r k w).1).1 r')
      with (deref (Map_delete r k w).1 r').
    rewrite entries_Map_delete by done. simpl.
    destruct (decide (r = r')) as [<-|Hne]; [|apply H4].
    destruct (decide (k = k')) as [<-|Hkk].
    + by rewrite get_delete_eq.
    + rewrite get_delete_ne by done. apply H4.
Qed.


(** By the agreement, the timers waiting for a task are those of its
    stored callback. *)
Lemma timers_for_task_pending w obj r k p t :
  wf w → wf_timers w →
  registeredDebounces w !! obj = Some r →
  JsMap.get k (entries (deref w r)) = Some p →
  t ∈ timers (scheduler w) → for_task obj k t →
  timer_target t = obj ∧ timer_method t = debouncedTask p ∧ timer_id t = cancelId p.
Proof.
  intros Hwf Hwt Hr Hp Ht [Hobj Hk].
  destruct (wft_recorded _ Hwt t Ht) as [Htgt (r' & Hr' & Hg)].
  rewrite Htgt, Hobj in Hr'. rewrite Hr in Hr'. injection Hr' as <-.
  rewrite Hk, Hp in Hg. injection Hg as ->. simpl. split_and!; [congruence|done..].
Qed.

Lemma timers_for_task_none w obj r k t :
  wf_timers w →
  registeredDebounces w !! obj = Some r →
  JsMap.get k (entries (deref w r)) = None →
  t ∈ timers (scheduler w) → ¬ for_task obj k t.
Proof.
  intros Hwt Hr Hp Ht [Hobj Hk].
  destruct (wft_recorded _ Hwt t Ht) as [Htgt (r' & Hr' & Hg)].
  rewrite Htgt, Hobj in Hr'. rewrite Hr in Hr'. injection Hr' as <-.
  by rewrite Hk, Hp in Hg.
Qed.

Lemma wf_timers_debounceTask obj k a w :
  wf w → wf_timers w → wf_timers (debounceTask obj k a w).1.
Proof.
  intros Hwf Hwt. destruct (accepts w obj k) eqn:Ha.
  2: { by rewrite debounceTask_rejects. }
  rewrite debounceTask_owner_known by done.
  destruct (pendingDebounces_of_fields obj w) as (r & _ & Hr & Ho & _).
  apply (wf_pendingDebounces_of obj) in Hwf.
  apply (wf_timers_pendingDebounces_of obj) in Hwt.
  rewrite <- (accepts_same_objects _ _ obj k Ho) in Ha.
  set (w1 := (pendingDebounces_of obj w).1) in *. clearbody w1.
  destruct (JsMap.get k (entries (deref w1 r))) as [p|] eqn:Hp.
  - rewrite (debounceTask_known_pending _ _ _ _ _ _ Ha Hr Hp).
    destruct (closes_over_owner w1 obj r k (debouncedTask p)) as [Hobj Hk]; [done..| |].
    { eapply wf_closures; [done|by eapply heap_lookup_deref|done]. }
    apply wf_timers_schedule; try done.
    intros t Ht Hft. by eapply timers_for_task_pending.
  - rewrite (debounceTask_known_fresh _ _ _ _ _ Ha Hr Hp).
    apply (wf_timers_schedule (set_next_closure Datatypes.S w1)); try done.
    + by apply wf_next_closure.
    + by eapply wf_timers_frame, Hwt.
    + intros t Ht Hft. by destruct (timers_for_task_none w1 obj r k t).
Qed.

Lemma wf_timers_cancelDebounce obj k w :
  wf w → wf_timers w → wf_timers (cancelDebounce obj k w).1.
Proof.
  intros Hwf Hwt. destruct (registeredDebounces w !! obj) as [r|] eqn:Hr.
  2: { by rewrite cancelDebounce_no_Map. }
  destruct (JsMap.get k (entries (deref w r))) as [p|] eqn:Hp.
  2: { by erewrite cancelDebounce_no_entry. }
  erewrite cancelDebounce_pending by done. by eapply wf_timers_cancel.
Qed.

Lemma wf_timers_expire id w : wf_timers w → wf_timers (expire id w).1.
Proof.
  intros Hwt. unfold expire. simpl. unfold runloop_expire.
  destruct (List.find _ _) as [t|]; [|done].
  destruct (registeredDebounces_call_debouncedTask (timer_method t) (timer_args t)
    (set_scheduler (λ _, RunLoop (filter (λ t, timer_id t ≠ id) (timers (scheduler w)))
                                (next_timer (scheduler w))) w)) as (Hreg & Hs & _).
  eapply (wf_timers_fewer w _ (λ t, timer_id t ≠ id)); [by rewrite Hreg| |by rewrite Hs..|done].
  intros r. by rewrite entries_call_debouncedTask.
Qed.

Lemma wf_timers_run_disposable d w : wf_timers w → wf_timers (run_disposable d w).1.
Proof.
  intros Hwt. unfold run_disposable. destruct (debounces d) as [r|]; [|done].
  erewrite bind_returned by reflexivity. rewrite cancel_each_runloop.
  by eapply (wf_timers_fewer w _ (λ t, timer_id t ∉ _)).
Qed.

Lemma wf_timers_step w w' : wf w → wf_timers w → step w w' → wf_timers w'.
Proof.
  intros Hwf Hwt Hstep. destruct Hstep.
  - by apply wf_timers_debounceTask.
  - by apply wf_timers_cancelDebounce.
  - by apply wf_timers_expire.
  - by apply wf_timers_run_disposable.
  - by eapply wf_timers_frame, Hwt.
Qed.

Lemma reachable_wf_timers w : reachable w → wf_timers w.
Proof.
  induction 1 as [objs name|w w' Hreach IH Hstep].
  - constructor; simpl.
    + intros t Ht. by apply elem_of_nil in Ht.
    + intros t Ht. by apply elem_of_nil in Ht.
    + apply NoDup_nil_2.
    + intros r k p. by destruct r.
  - eapply wf_timers_step; [by apply reachable_wf|done..].
Qed.

Lemma find_unique (l : list timer) t :
  NoDup (timer_id <$> l) → t ∈ l →
  List.find (λ t', bool_decide (timer_id t' = timer_id t)) l = Some t.
Proof.
  induction l as [|t0 l IH]; simpl; intros Hnd Ht.
  - by apply elem_of_nil in Ht.
  - apply NoDup_cons in Hnd as [Hnot Hnd].
    apply elem_of_cons in Ht as [->|Ht].
    + by rewrite bool_decide_eq_true_2.
    + rewrite bool_decide_eq_false_2; [by apply IH|].
      intros Heq. apply Hnot. rewrite Heq. apply list_elem_of_fmap. by exists t.
Qed.

Lemma expire_timer w t f :
  NoDup (timer_id <$> timers (scheduler w)) →
  t ∈ timers (scheduler w) →
  task_function w (cl_obj (timer_method t)) (cl_nameOrFunction (timer_method t)) = VFunction f →
  (expire (timer_id t) w).2 = Returned tt
  ∧ calls (expire (timer_id t) w).1 =
      calls w ++ [Call (cl_obj (timer_method t)) f (timer_args t)]
  ∧ timers (scheduler (expire (timer_id t) w).1) =
      filter (λ t', timer_id t' ≠ timer_id t) (timers (scheduler w)).
Proof.
  intros Hnd Ht Hf. unfold expire. simpl. unfold runloop_expire.
  rewrite (find_unique _ _ Hnd Ht).
  set (w0 := set_scheduler _ w).
  destruct (call_debouncedTask_calls (timer_method t) (timer_args t) w0 f) as [Hret Hcalls];
    [done|].
  destruct (registeredDebounces_call_debouncedTask (timer_method t) (timer_args t) w0)
    as (_ & Hs & _).
  split_and!; [done|done|]. by rewrite Hs.
Qed.

(** One accepted call leaves exactly one timer waiting for the task. *)
Lemma debounceTask_one_timer obj k a w :
  wf w → wf_timers w → accepts w obj k = true →
  ∃ c r,
    registeredDebounces (debounceTask obj k a w).1 !! obj = Some r
    ∧ JsMap.get k (entries (deref (debounceTask obj k a w).1 r))
      = Some (MkPending c (next_timer (scheduler w)))
    ∧ cl_obj c = obj ∧ cl_nameOrFunction c = k
    ∧ filter (for_task obj k) (timers (scheduler (debounceTask obj k a w).1))
      = [Timer (next_timer (scheduler w)) obj c (removelast a) (List.last a VUndefined)]
    ∧ objects (debounceTask obj k a w).1 = objects w
    ∧ calls (debounceTask obj k a w).1 = calls w.
Proof.
  intros Hwf Hwt Ha. rewrite debounceTask_owner_known by done.
  destruct (pendingDebounces_of_fields obj w) as (r & _ & Hr & Ho & _ & _ & Hs & Hc).
  apply (wf_pendingDebounces_of obj) in Hwf.
  apply (wf_timers_pendingDebounces_of obj) in Hwt.
  rewrite <- (accepts_same_objects _ _ obj k Ho) in Ha.
  rewrite <- Hs, <- Ho, <- Hc.
  set (w1 := (pendingDebounces_of obj w).1) in *. clearbody w1. clear Hs Ho Hc.
  assert (r < length (heap w1)) as Hlt by by eapply wf_refs.
  assert (∀ c, cl_obj c = obj → cl_nameOrFunction c = k →
    (∀ t, t ∈ timers (scheduler w1) → for_task obj k t →
          timer_target t = obj ∧ timer_method t = c) →
    filter (for_task obj k)
      (filter (λ t', ¬ same_debouncee obj c t') (timers (scheduler w1)) ++
       [Timer (next_timer (scheduler w1)) obj c (removelast a) (List.last a VUndefined)])
    = [Timer (next_timer (scheduler w1)) obj c (removelast a) (List.last a VUndefined)])
    as Hfilter.
  { intros c Hobj Hk Hsame. rewrite filter_app, filter_none.
    - simpl. by rewrite filter_cons_True.
    - intros t [Hns Ht]%list_elem_of_filter Hft. apply Hns. by apply Hsame. }
  destruct (JsMap.get k (entries (deref w1 r))) as [p|] eqn:Hp.
  - rewrite (debounceTask_known_pending _ _ _ _ _ _ Ha Hr Hp).
    destruct (closes_over_owner w1 obj r k (debouncedTask p)) as [Hobj Hk]; [done..| |].
    { eapply wf_closures; [done|by eapply heap_lookup_deref|done]. }
    exists (debouncedTask p), r. split_and!; try done.
    + rewrite entries_Map_set, decide_True by done. apply get_set_eq.
    + apply Hfilter; [done..|]. intros t Ht Hft.
      by destruct (timers_for_task_pending w1 obj r k p t) as (? & ? & _).
  - rewrite (debounceTask_known_fresh _ _ _ _ _ Ha Hr Hp).
    exists (Closure (next_closure w1) r obj k), r. split_and!; try done.
    + rewrite entries_Map_set, decide_True by done. apply get_set_eq.
    + apply Hfilter; [done..|]. intros t Ht Hft.
      by destruct (timers_for_task_none w1 obj r k t).
Qed.


(** C2. While a debounce is pending for the task on the owner, one more
    accepted [debounceTask] call makes no new callback, requests a timer
    from the run loop for the stored callback, gets a handle that differs
    from the stored one, and overwrites the entry with the same callback
    and the new handle. And after any number of accepted calls in a row
    (at least one), exactly one timer waits for the task; it carries the
    arguments of the last call, and letting it expire calls the task once
    with them and leaves no timer for the task behind. *)
Theorem debounceTask_coalesces obj k w :
  reachable w → accepts w obj k = true →
  (∀ r p a,
     registeredDebounces w !! obj = Some r →
     JsMap.get k (entries (deref w r)) = Some p →
     let w1 := (debounceTask obj k a w).1 in
     let t := (sched_debounce obj (debouncedTask p) a (scheduler w)).2 in
     next_closure w1 = next_closure w
     ∧ scheduler w1 = (sched_debounce obj (debouncedTask p) a (scheduler w)).1
     ∧ t ≠ cancelId p
     ∧ JsMap.get k (entries (deref w1 r)) = Some (MkPending (debouncedTask p) t))
  ∧ (∀ argss a,
     let w' := (debounceTask_each obj k (argss ++ [a]) w).1 in
     ∃ t f,
       filter (for_task obj k) (timers (scheduler w')) = [t]
       ∧ timer_args t = removelast a
       ∧ task_function w obj k = VFunction f
       ∧ (expire (timer_id t) w').2 = Returned tt
       ∧ calls (expire (timer_id t) w').1 = calls w ++ [Call obj f (removelast a)]
       ∧ filter (for_task obj k) (timers (scheduler (expire (timer_id t) w').1)) = []).
Proof.
  intros Hreach Ha. split.
  - intros r p a Hr Hp w1 t.
    pose proof (reachable_wf_timers _ Hreach) as Hwt.
    assert (r < length (heap w)) as Hlt by by eapply get_Some_valid.
    unfold w1. rewrite (debounceTask_known_pending _ _ _ _ _ _ Ha Hr Hp).
    split_and!; [done|done| |].
    + pose proof (wft_issued _ Hwt r k p Hp) as Hlt'. unfold t. simpl. lia.
    + rewrite entries_Map_set, decide_True by done. apply get_set_eq.
  - intros argss a w'.
    destruct (debounceTask_each_last obj k argss a w Hreach Ha)
      as (w0 & Hreach0 & Ho0 & Hc0 & Heq).
    assert (accepts w0 obj k = true) as Ha0.
    { by rewrite (accepts_same_objects _ _ obj k Ho0). }
    destruct (accepts_task_function w obj k Ha) as [f Hf].
    unfold w'. rewrite Heq. clear w' Heq.
    destruct (debounceTask_one_timer obj k a w0) as (c & r & Hr & Hg & Hobj & Hk & Hfil & Ho & Hc);
      [by apply reachable_wf|by apply reachable_wf_timers|done|].
    assert (reachable (debounceTask obj k a w0).1) as Hreach1.
    { eapply reachable_step; [done|]. apply step_debounceTask. }
    set (w1 := (debounceTask obj k a w0).1) in *. clearbody w1.
    set (t := Timer _ _ _ _ _) in *.
    exists t, f.
    assert (t ∈ timers (scheduler w1)) as Ht.
    { eapply (list_elem_of_filter (for_task obj k)). rewrite Hfil. apply list_elem_of_here. }
    destruct (expire_timer w1 t f) as (Hret & Hcalls & Hts).
    { by apply reachable_wf_timers. }
    { done. }
    { simpl. rewrite Hobj, Hk. unfold task_function, member, get_prop in *.
      by rewrite Ho, Ho0. }
    split_and!; [done|done|done|done| |].
    + rewrite Hcalls. simpl. by rewrite Hobj, Hc, Hc0.
    + rewrite Hts. rewrite list_filter_filter.
      rewrite (list_filter_iff _ (λ t', (timer_id t' ≠ timer_id t) ∧ for_task obj k t')) by tauto.
      rewrite <- list_filter_filter, Hfil.
      by rewrite filter_cons_False by (intros Hid; by apply Hid).
Qed.

(** C9. The callback of a method name looks the method up when it is
    called: after [debounceTask(obj, name, ...a)], if the application
    assigns another function [g] to [obj[name]] and the timer then
    expires, it is [g] that is called, on [obj], with the forwarded
    arguments. *)
Theorem debouncedTask_resolves_member_late obj name a g w :
  reachable w → accepts w obj (VString name) = true →
  let w1 := (debounceTask obj (VString name) a w).1 in
  let w2 := assign obj name (VFunction g) w1 in
  (expire (next_timer (scheduler w)) w2).2 = Returned tt
  ∧ calls (expire (next_timer (scheduler w)) w2).1
    = calls w ++ [Call obj g (removelast a)].
Proof.
  intros Hreach Ha w1 w2.
  destruct (debounceTask_one_timer obj (VString name) a w)
    as (c & r & Hr & Hg & Hobj & Hk & Hfil & Ho & Hc);
    [by apply reachable_wf|by apply reachable_wf_timers|done|].
  assert (reachable w1) as Hreach1.
  { eapply reachable_step; [done|]. apply step_debounceTask. }
  fold w1 in Hr, Hg, Hfil, Ho, Hc.
  set (t := Timer _ _ _ _ _) in *.
  assert (t ∈ timers (scheduler w2)) as Ht.
  { change (scheduler w2) with (scheduler w1).
    eapply (list_elem_of_filter (for_task obj (VString name))). rewrite Hfil.
    apply list_elem_of_here. }
  destruct (expire_timer w2 t g) as (Hret & Hcalls & _).
  { change (scheduler w2) with (scheduler w1).
    by apply (wft_nodup w1), reachable_wf_timers. }
  { done. }
  { simpl. rewrite Hobj, Hk. unfold task_function, member, get_prop, w2, assign. simpl.
    rewrite lookup_insert_eq. simpl. by rewrite lookup_insert_eq. }
  change (timer_id t) with (next_timer (scheduler w)) in *.
  split; [done|]. rewrite Hcalls. simpl. by rewrite Hobj, <- Hc.
Qed.

(** C6. Running a teardown action cancels, in the run loop, the timer of
    every entry of the Map it closes over: afterwards the waiting timers
    are those whose handle is in no entry, so none of an entry is left. It
    returns normally, and where the Map is empty or [debounces] is
    undefined the state is as it was. *)
Theorem teardown_cancels_every_timer (d : disposable) w :
  let handles :=
    match debounces d with
    | Some r => cancelId <$> JsMap.values (entries (deref w r))
    | None => []
    end in
  run_disposable d w =
    (set_scheduler
       (λ s, RunLoop (filter (λ t, timer_id t ∉ handles) (timers s)) (next_timer s)) w,
     Returned tt)
  ∧ (∀ r k p t,
       debounces d = Some r →
       JsMap.get k (entries (deref w r)) = Some p →
       t ∈ timers (scheduler (run_disposable d w).1) → timer_id t ≠ cancelId p)
  ∧ (handles = [] → run_disposable d w = (w, Returned tt)).
Proof.
  intros handles.
  assert (run_disposable d w =
    (set_scheduler
       (λ s, RunLoop (filter (λ t, timer_id t ∉ handles) (timers s)) (next_timer s)) w,
     Returned tt)) as Heq.
  { unfold run_disposable, handles. destruct (debounces d) as [r|].
    - erewrite bind_returned by reflexivity. apply cancel_each_runloop.
    - unfold ret. f_equal. destruct w as [? ? ? ? ? ? [ts n] ?]. unfold set_scheduler. simpl.
      rewrite filter_all; [done|]. intros t _. apply not_elem_of_nil. }
  split_and!; [done| |].
  - intros r k p t Hd Hp. rewrite Heq. simpl. intros [Hnot _]%list_elem_of_filter Hid.
    apply Hnot. unfold handles. rewrite Hd, Hid.
    apply list_elem_of_fmap. exists p. split; [done|]. by eapply get_values.
  - intros Hnil. rewrite Heq, Hnil. f_equal.
    destruct w as [? ? ? ? ? ? [ts n] ?]. unfold set_scheduler. simpl.
    rewrite filter_all; [done|]. intros t _. apply not_elem_of_nil.
Qed.

End RunLoop.

(** ** The small application *)

(** C1, where the code departs from it. [debounceTask(obj, 'logMe', 300)]
    is called and its timer expires: [logMe] is called on [obj] with the
    run loop's arguments, but the entry for ['logMe'] is still in the Map
    of [obj]; the next [debounceTask] call for the pair finds it and reuses
    the old callback instead of starting afresh. *)
Theorem fired_debouncedTask_keeps_its_entry :
  let logMe := VString "logMe" in
  let w1 := run (debounceTask 1 logMe [VNumber 300]) app in
  let w2 := run (expire 0) w1 in
  let w3 := run (debounceTask 1 logMe [VNumber 300]) w2 in
  timers (scheduler w1) = [Timer 0 1 (Closure 0 0 1 logMe) [] (VNumber 300)]
  ∧ calls w2 = [Call 1 7 []]
  ∧ timers (scheduler w2) = []
  ∧ JsMap.get logMe (entries (deref w2 0)) = Some (MkPending (Closure 0 0 1 logMe) 0)
  ∧ next_closure w3 = next_closure w2
  ∧ JsMap.get logMe (entries (deref w3 0)) = Some (MkPending (Closure 0 0 1 logMe) 1).
Proof. vm_compute. repeat split. Qed.

Lemma app_pending_reachable : reachable app_pending.
Proof. eapply reachable_step; [apply reachable_initial | apply step_debounceTask]. Defined.

Lemma debounceTask_coalesces_witness :
  reachable app_pending
  ∧ accepts app_pending 1 (VString "logMe") = true
  ∧ ∃ t f,
      filter (for_task 1 (VString "logMe"))
        (timers (scheduler (debounceTask_each 1 (VString "logMe")
           ([[VNumber 1; VNumber 300]] ++ [[VNumber 2; VNumber 300]]) app_pending).1)) = [t]
      ∧ timer_args t = [VNumber 2]
      ∧ task_function app_pending 1 (VString "logMe") = VFunction f
      ∧ (expire (timer_id t) (debounceTask_each 1 (VString "logMe")
           ([[VNumber 1; VNumber 300]] ++ [[VNumber 2; VNumber 300]]) app_pending).1).2 = Returned tt
      ∧ calls (expire (timer_id t) (debounceTask_each 1 (VString "logMe")
           ([[VNumber 1; VNumber 300]] ++ [[VNumber 2; VNumber 300]]) app_pending).1).1
        = calls app_pending ++ [Call 1 f [VNumber 2]]
      ∧ filter (for_task 1 (VString "logMe"))
          (timers (scheduler (expire (timer_id t) (debounceTask_each 1 (VString "logMe")
           ([[VNumber 1; VNumber 300]] ++ [[VNumber 2; VNumber 300]]) app_pending).1).1)) = [].
Proof.
  split; [apply app_pending_reachable|]. split; [reflexivity|].
  exact (proj2 (debounceTask_coalesces 1 (VString "logMe") app_pending
                  app_pending_reachable eq_refl)
               [[VNumber 1; VNumber 300]] [VNumber 2; VNumber 300]).
Defined.

Lemma cancelDebounce_pending_starts_afresh_witness :
  wf app_pending
  ∧ registeredDebounces app_pending !! 1 = Some 0
  ∧ JsMap.get (VString "logMe") (entries (deref app_pending 0))
    = Some (MkPending (Closure 0 0 1 (VString "logMe")) 0)
  ∧ scheduler (cancelDebounce 1 (VString "logMe") app_pending).1 = RunLoop [] 1
  ∧ JsMap.get (VString "logMe")
      (entries (deref (cancelDebounce 1 (VString "logMe") app_pending).1 0)) = None.
Proof.
  pose proof (cancelDebounce_pending_starts_afresh 1 (VString "logMe") [VNumber 300]
    app_pending 0 (MkPending (Closure 0 0 1 (VString "logMe")) 0)
    (reachable_wf _ app_pending_reachable) eq_refl eq_refl) as (Hs & Hgone & _).
  split; [exact (reachable_wf _ app_pending_reachable)|].
  split; [reflexivity|]. split; [reflexivity|]. split; [exact Hs | exact Hgone].
Defined.

Lemma cancelDebounce_absent_is_noop_witness :
  registeredDebounces app !! 1 = None
  ∧ cancelDebounce 1 (VString "logMe") app = (app, Returned tt).
Proof.
  split; [reflexivity|].
  apply (cancelDebounce_absent_is_noop 1 (VString "logMe") app). left. reflexivity.
Defined.

Lemma debounceTask_invalid_aborts_witness :
  (typeof (VNumber 5) ≠ TString ∧ typeof (VNumber 5) ≠ TFunction)
  ∧ ∃ e, debounceTask 1 (VNumber 5) [VNumber 300] app = (app, Threw e)
         ∧ (InvalidArgumentError e ∨ InvalidStateError e).
Proof.
  assert (typeof (VNumber 5) ≠ TString ∧ typeof (VNumber 5) ≠ TFunction) as Hbad.
  { split; discriminate. }
  split; [exact Hbad|].
  destruct (debounceTask_invalid_aborts 1 (VNumber 5) [VNumber 300] app (or_introl Hbad))
    as (e & Heq & Hclass & _).
  exists e. split; [exact Heq | exact Hclass].
Defined.

Lemma teardown_cancels_every_timer_witness :
  run_disposable (getDebouncesDisposable (Some 0)) app_pending
  = (set_scheduler (λ _, RunLoop [] 1) app_pending, Returned tt).
Proof.
  exact (proj1 (teardown_cancels_every_timer (getDebouncesDisposable (Some 0)) app_pending)).
Defined.

Lemma teardown_registered_once_witness :
  reachable app_pending
  ∧ filter (λ x, x.1 = 1) (disposables app_pending) = [(1, getDebouncesDisposable (Some 0))].
Proof.
  split; [apply app_pending_reachable|].
  exact (proj1 (teardown_registered_once app_pending app_pending_reachable) 1).
Defined.

Lemma pending_debounce_unique_witness :
  reachable app_pending
  ∧ registeredDebounces app_pending !! 1 = Some 0
  ∧ NoDup (JsMap.keys (entries (deref app_pending 0))).
Proof.
  split; [apply app_pending_reachable|]. split; [reflexivity|].
  exact (proj1 (pending_debounce_unique app_pending app_pending_reachable 1 0 eq_refl)).
Defined.

Lemma debouncedTask_resolves_member_late_witness :
  reachable app
  ∧ accepts app 1 (VString "logMe") = true
  ∧ calls (expire 0 (assign 1 "logMe" (VFunction 8)
             (debounceTask 1 (VString "logMe") [VNumber 300] app).1)).1
    = [Call 1 8 []].
Proof.
  split; [apply reachable_initial|]. split; [reflexivity|].
  exact (proj2 (debouncedTask_resolves_member_late 1 "logMe" [VNumber 300] 8 app
                  (reachable_initial _ _) eq_refl)).
Defined.

Lemma cancelDebounce_deletes_before_cancel_witness :
  registeredDebounces app_failing !! 1 = Some 0
  ∧ JsMap.get (VString "logMe") (entries (deref app_failing 0))
    = Some (MkPending (Closure 0 0 1 (VString "logMe")) 0)
  ∧ (cancelDebounce 1 (VString "logMe") app_failing).2 = Threw (SchedulerError 0)
  ∧ JsMap.get (VString "logMe")
      (entries (deref (cancelDebounce 1 (VString "logMe") app_failing).1 0)) = None.
Proof.
  split; [reflexivity|]. split; [reflexivity|].
  exact (proj2 (proj2 (proj2 (proj2
    (cancelDebounce_deletes_before_cancel 1 (VString "logMe") app_failing 0
       (MkPending (Closure 0 0 1 (VString "logMe")) 0) eq_refl eq_refl))))
    (SchedulerError 0) eq_refl).
Defined.

(** * More of the module's behaviour *)

Section JsMapMore.
Context {K V : Type} `{EqDecision K}.
Implicit Types (k : K) (v : V) (m : list (K * V)).

Lemma get_delete_Some k k' v m :
  JsMap.get k' (JsMap.delete k m) = Some v → k ≠ k' ∧ JsMap.get k' m = Some v.
Proof.
  destruct (decide (k = k')) as [<-|Hne].
  - by rewrite get_delete_eq.
  - by rewrite get_delete_ne.
Qed.

Lemma values_get v m :
  v ∈ JsMap.values m → NoDup (JsMap.keys m) → ∃ k, JsMap.get k m = Some v.
Proof.
  unfold JsMap.values, JsMap.keys. induction m as [|[k0 v0] m IH]; simpl.
  - by intros ?%elem_of_nil.
  - intros [->|Hin]%elem_of_cons [Hnot Hnd]%NoDup_cons.
    + exists k0. by rewrite decide_True.
    + destruct (IH Hin Hnd) as [k Hk]. exists k.
      rewrite decide_False; [done|]. intros ->.
      apply get_None_keys in Hnot. congruence.
Qed.
End JsMapMore.

Section MoreFacts.
Context {S : Type} `{Scheduler S}.
Implicit Types (w : world S) (obj r : nat) (k : value).

Lemma registry_pendingDebounces_of obj w o r :
  registeredDebounces w !! o = Some r →
  registeredDebounces (pendingDebounces_of obj w).1 !! o = Some r.
Proof.
  intros Ho. destruct (registeredDebounces w !! obj) as [r0|] eqn:Hr.
  - by rewrite (pendingDebounces_of_known _ _ _ Hr).
  - rewrite (pendingDebounces_of_new _ _ Hr). simpl.
    rewrite lookup_insert_ne; [done|]. congruence.
Qed.

Lemma heap_pendingDebounces_of obj w :
  length (heap w) ≤ length (heap (pendingDebounces_of obj w).1).
Proof.
  destruct (registeredDebounces w !! obj) as [r0|] eqn:Hr.
  - by rewrite (pendingDebounces_of_known _ _ _ Hr).
  - rewrite (pendingDebounces_of_new _ _ Hr). simpl. rewrite length_app. lia.
Qed.

(** What an accepted call does to the registry and the Maps. *)
Lemma debounceTask_effect obj k a w :
  wf w → accepts w obj k = true →
  ∃ r p,
    registeredDebounces (debounceTask obj k a w).1 !! obj = Some r
    ∧ registeredDebounces (debounceTask obj k a w).1
      = registeredDebounces (pendingDebounces_of obj w).1
    ∧ length (heap (debounceTask obj k a w).1)
      = length (heap (pendingDebounces_of obj w).1)
    ∧ next_closure w ≤ next_closure (debounceTask obj k a w).1
    ∧ JsMap.get k (entries (deref (debounceTask obj k a w).1 r)) = Some p
    ∧ ∀ r', entries (deref (debounceTask obj k a w).1 r') =
            if decide (r = r') then JsMap.set k p (entries (deref w r))
            else entries (deref w r').
Proof.
  intros Hwf Ha. rewrite debounceTask_owner_known by done.
  destruct (pendingDebounces_of_fields obj w) as (r & _ & Hr & Ho & _ & Hn & _).
  apply (wf_pendingDebounces_of obj) in Hwf.
  rewrite <- (accepts_same_objects _ _ obj k Ho) in Ha.
  rewrite <- Hn.
  assert (∀ r', deref (pendingDebounces_of obj w).1 r' = deref w r') as Hd
    by apply deref_pendingDebounces_of.
  set (w1 := (pendingDebounces_of obj w).1) in *. clearbody w1.
  assert (r < length (heap w1)) as Hlt by by eapply wf_refs.
  destruct (JsMap.get k (entries (deref w1 r))) as [p|] eqn:Hp.
  - rewrite (debounceTask_known_pending _ _ _ _ _ _ Ha Hr Hp).
    eexists r, _. split_and!; [done|done|by simpl; rewrite length_insert|done| |].
    + rewrite entries_Map_set, decide_True by done. apply get_set_eq.
    + intros r'. rewrite entries_Map_set by done. unfold deref in *. simpl. by rewrite !Hd.
  - rewrite (debounceTask_known_fresh _ _ _ _ _ Ha Hr Hp).
    eexists r, _. split_and!; [done|done|by simpl; rewrite length_insert|simpl; lia| |].
    + rewrite entries_Map_set, decide_True by done. apply get_set_eq.
    + intros r'. rewrite entries_Map_set by done. unfold deref in *. simpl. by rewrite !Hd.
Qed.

(** What [cancelDebounce] does to the registry and the Maps. *)
Lemma cancelDebounce_effect obj k w :
  registeredDebounces (cancelDebounce obj k w).1 = registeredDebounces w
  ∧ length (heap (cancelDebounce obj k w).1) = length (heap w)
  ∧ next_closure (cancelDebounce obj k w).1 = next_closure w
  ∧ calls (cancelDebounce obj k w).1 = calls w
  ∧ objects (cancelDebounce obj k w).1 = objects w
  ∧ ∀ r' k',
      JsMap.get k' (entries (deref (cancelDebounce obj k w).1 r')) =
      if decide (registeredDebounces w !! obj = Some r' ∧ k = k') then None
      else JsMap.get k' (entries (deref w r')).
Proof.
  destruct (registeredDebounces w !! obj) as [r|] eqn:Hr.
  2: { rewrite cancelDebounce_no_Map by done. by split_and!. }
  destruct (JsMap.get k (entries (deref w r))) as [p|] eqn:Hp.
  2: { erewrite cancelDebounce_no_entry by done. split_and!; try done.
       intros r' k'. case_decide as Hc; [|done]. destruct Hc as [[= <-] <-]. done. }
  assert (r < length (heap w)) as Hlt by by eapply get_Some_valid.
  rewrite (cancelDebounce_pending _ _ _ _ _ Hr Hp), cancel_world.
  split_and!; [done|by simpl; rewrite length_insert|done..|].
  intros r' k'.
  change (deref (set_scheduler _ (Map_delete r k w).1) r')
    with (deref (Map_delete r k w).1 r').
  rewrite entries_Map_delete by done.
  destruct (decide (r = r')) as [<-|Hne].
  - destruct (decide (k = k')) as [<-|Hkk].
    + rewrite decide_True by done. apply get_delete_eq.
    + rewrite decide_False by (by intros [_ ?]). by apply get_delete_ne.
  - rewrite decide_False; [done|]. intros [[= ?] _]. done.
Qed.


(** X1. Whatever callback fires, with whatever arguments and in whatever
    state: no Map gains, loses or changes an entry, and the registry, the
    registered teardown actions, the callback counter, the run loop and the
    objects are as before. (It deletes an own property of the Map object
    and calls the task, nothing else.) *)
Theorem fired_callback_leaves_entries c args w :
  let w' := (call_debouncedTask c args w).1 in
  (∀ r, entries (deref w' r) = entries (deref w r))
  ∧ registeredDebounces w' = registeredDebounces w
  ∧ disposables w' = disposables w
  ∧ next_closure w' = next_closure w
  ∧ scheduler w' = scheduler w
  ∧ objects w' = objects w.
Proof.
  intros w'. split; [intros r; apply entries_call_debouncedTask|].
  unfold w'. by destruct (call_debouncedTask_world c args w) as [cs ->].
Qed.

(** X2. [cancelDebounce] is idempotent: called again for the same owner
    and task identity right after itself, it returns normally and changes
    nothing, whatever the run loop did on the first call. *)
Theorem cancelDebounce_twice obj k w :
  cancelDebounce obj k (cancelDebounce obj k w).1
  = ((cancelDebounce obj k w).1, Returned tt).
Proof.
  destruct (cancelDebounce_effect obj k w) as (Hreg & _ & _ & _ & _ & Hent).
  destruct (registeredDebounces w !! obj) as [r|] eqn:Hr.
  - eapply cancelDebounce_no_entry; [by rewrite Hreg|].
    rewrite Hent. by rewrite decide_True.
  - apply cancelDebounce_no_Map. by rewrite Hreg.
Qed.

(** X3. A call whose three checks hold returns normally and makes one
    request to the run loop: for the callback that is stored under the
    task identity afterwards, on the owner, with the arguments of this
    call; the handle in the entry is the one this request returned. *)
Theorem debounceTask_accepted_requests_one_timer obj k a w :
  reachable w → accepts w obj k = true →
  let w' := (debounceTask obj k a w).1 in
  (debounceTask obj k a w).2 = Returned tt
  ∧ ∃ r c,
      registeredDebounces w' !! obj = Some r
      ∧ scheduler w' = (sched_debounce obj c a (scheduler w)).1
      ∧ JsMap.get k (entries (deref w' r))
        = Some (MkPending c (sched_debounce obj c a (scheduler w)).2).
Proof.
  intros Hwf%reachable_wf Ha w'. split; [by apply debounceTask_returns|].
  unfold w'. rewrite debounceTask_owner_known by done.
  destruct (pendingDebounces_of_fields obj w) as (r & _ & Hr & Ho & _ & _ & Hs & _).
  apply (wf_pendingDebounces_of obj) in Hwf.
  rewrite <- (accepts_same_objects _ _ obj k Ho) in Ha. rewrite <- Hs.
  set (w1 := (pendingDebounces_of obj w).1) in *. clearbody w1.
  assert (r < length (heap w1)) as Hlt by by eapply wf_refs.
  destruct (JsMap.get k (entries (deref w1 r))) as [p|] eqn:Hp.
  - rewrite (debounceTask_known_pending _ _ _ _ _ _ Ha Hr Hp).
    exists r, (debouncedTask p). split_and!; [done|done|].
    rewrite entries_Map_set, decide_True by done. apply get_set_eq.
  - rewrite (debounceTask_known_fresh _ _ _ _ _ Ha Hr Hp).
    exists r, (Closure (next_closure w1) r obj k). split_and!; [done|done|].
    rewrite entries_Map_set, decide_True by done. apply get_set_eq.
Qed.

(** X4. After an accepted [debounceTask] call the owner has a Map, and
    the Map has an entry for the task identity whose callback closes over
    that owner, that identity and that Map. The call itself runs no user
    function and changes no object: the task is never called
    synchronously. *)
Theorem debounceTask_accepted_postcondition obj k a w :
  reachable w → accepts w obj k = true →
  let w' := (debounceTask obj k a w).1 in
  ∃ r p,
    registeredDebounces w' !! obj = Some r
    ∧ JsMap.get k (entries (deref w' r)) = Some p
    ∧ cl_obj (debouncedTask p) = obj
    ∧ cl_nameOrFunction (debouncedTask p) = k
    ∧ cl_pendingDebounces (debouncedTask p) = r
    ∧ calls w' = calls w
    ∧ objects w' = objects w.
Proof.
  intros Hreach Ha w'.
  assert (reachable w') as Hreach'.
  { eapply reachable_step; [done|]. apply step_debounceTask. }
  destruct (debounceTask_effect obj k a w) as (r & p & Hr & _ & _ & _ & Hg & _);
    [by apply reachable_wf|done|].
  fold w' in Hr, Hg. apply reachable_wf in Hreach'.
  destruct (wf_closures _ Hreach' r (deref w' r) k p) as (Hcr & _);
    [by eapply heap_lookup_deref|done|].
  destruct (closes_over_owner w' obj r k (debouncedTask p)) as [Hobj Hk]; [done..| |].
  { eapply wf_closures; [done|by eapply heap_lookup_deref|done]. }
  exists r, p. split_and!; try done.
  - unfold w'. rewrite debounceTask_owner_known by done.
    destruct (pendingDebounces_of_fields obj w) as (r1 & _ & Hr1 & Ho & _ & _ & _ & Hc).
    pose proof Ha as Ha'. rewrite <- (accepts_same_objects _ _ obj k Ho) in Ha'.
    destruct (JsMap.get k (entries (deref (pendingDebounces_of obj w).1 r1))) as [p1|] eqn:Hp.
    + by rewrite (debounceTask_known_pending _ _ _ _ _ _ Ha' Hr1 Hp).
    + by rewrite (debounceTask_known_fresh _ _ _ _ _ Ha' Hr1 Hp).
  - unfold w'. rewrite debounceTask_owner_known by done.
    destruct (pendingDebounces_of_fields obj w) as (r1 & _ & Hr1 & Ho & _ & _ & _ & Hc).
    pose proof Ha as Ha'. rewrite <- (accepts_same_objects _ _ obj k Ho) in Ha'.
    destruct (JsMap.get k (entries (deref (pendingDebounces_of obj w).1 r1))) as [p1|] eqn:Hp.
    + by rewrite (debounceTask_known_pending _ _ _ _ _ _ Ha' Hr1 Hp).
    + by rewrite (debounceTask_known_fresh _ _ _ _ _ Ha' Hr1 Hp).
Qed.

(** X5. [debounceTask] and [cancelDebounce] for one owner and task
    identity leave the pending debounce of every other pair as it is:
    another owner's Map, and all other keys of the same owner's Map (so a
    method name and the function it names are separate tasks). *)
Theorem other_pending_debounces_untouched obj k a w obj' r' k' :
  reachable w →
  registeredDebounces w !! obj' = Some r' →
  obj' ≠ obj ∨ k' ≠ k →
  JsMap.get k' (entries (deref (debounceTask obj k a w).1 r'))
  = JsMap.get k' (entries (deref w r'))
  ∧ JsMap.get k' (entries (deref (cancelDebounce obj k w).1 r'))
    = JsMap.get k' (entries (deref w r')).
Proof.
  intros Hwf%reachable_wf Hr' Hother. split.
  - destruct (accepts w obj k) eqn:Ha.
    2: { by rewrite debounceTask_rejects. }
    destruct (debounceTask_effect obj k a w Hwf Ha) as (r & p & Hr & Hreg & _ & _ & _ & Hent).
    rewrite Hent. destruct (decide (r = r')) as [<-|Hne]; [|done].
    pose proof (wf_pendingDebounces_of obj w Hwf) as Hwf1.
    rewrite Hreg in Hr.
    pose proof (registry_pendingDebounces_of obj w obj' r Hr') as Hr1.
    assert (obj' = obj) as -> by by eapply wf_inj.
    destruct Hother as [?|Hk]; [done|]. by rewrite get_set_ne.
  - destruct (cancelDebounce_effect obj k w) as (_ & _ & _ & _ & _ & Hent).
    rewrite Hent. rewrite decide_False; [done|]. intros [Hr <-].
    destruct Hother as [Ho|?]; [|done]. apply Ho. by eapply wf_inj.
Qed.

(** X6. Nothing that can happen takes an owner's Map away or replaces
    it: after any step the registry maps the owner to the same Map, and no
    Map object is dropped. The Map a callback or a teardown action closed
    over stays the owner's Map. *)
Theorem owner_keeps_its_Map w w' obj r :
  reachable w → step w w' →
  registeredDebounces w !! obj = Some r →
  registeredDebounces w' !! obj = Some r
  ∧ length (heap w) ≤ length (heap w').
Proof.
  intros Hwf%reachable_wf Hstep Hr. destruct Hstep as [o k a w|o k w|t w|o d w Hd|o n v w].
  - destruct (accepts w o k) eqn:Ha.
    2: { by rewrite debounceTask_rejects. }
    destruct (debounceTask_effect o k a w Hwf Ha) as (r1 & p & _ & -> & -> & _).
    split; [by apply registry_pendingDebounces_of|apply heap_pendingDebounces_of].
  - destruct (cancelDebounce_effect o k w) as (-> & -> & _). done.
  - unfold expire. destruct (sched_expire t (scheduler w)) as [[s [c args]]|]; [|done].
    destruct (call_debouncedTask_world c args (set_scheduler (λ _, s) w)) as [cs ->].
    simpl. by rewrite length_insert.
  - by destruct (run_disposable_world d w) as [s ->].
  - done.
Qed.

(** X7. A callback is stored in one place only: if two entries hold the
    same callback, they are the same entry (same owner, same task
    identity). So a request the run loop keys by callback never replaces
    the timer of another task. *)
Theorem stored_callbacks_not_shared w obj r k p obj' r' k' p' :
  reachable w →
  registeredDebounces w !! obj = Some r →
  registeredDebounces w !! obj' = Some r' →
  JsMap.get k (entries (deref w r)) = Some p →
  JsMap.get k' (entries (deref w r')) = Some p' →
  debouncedTask p = debouncedTask p' →
  obj = obj' ∧ k = k'.
Proof.
  intros Hwf%reachable_wf Hr Hr' Hp Hp' Heq.
  destruct (wf_closures _ Hwf r (deref w r) k p) as (Hcr & Hck & _);
    [by eapply heap_lookup_deref|done|].
  destruct (wf_closures _ Hwf r' (deref w r') k' p') as (Hcr' & Hck' & _);
    [by eapply heap_lookup_deref|done|].
  rewrite Heq in Hcr, Hck. split; [|congruence].
  eapply wf_inj; [done..|]. congruence.
Qed.

End MoreFacts.

Section MoreRunLoop.
Implicit Types (w : world runloop) (obj r : nat) (k : value) (t : timer).

Lemma handles_unique_frame w w' :
  (∀ r k, JsMap.get k (entries (deref w' r)) = JsMap.get k (entries (deref w r))) →
  handles_unique w → handles_unique w'.
Proof.
  intros Hent Hu r k p r' k' p'. rewrite !Hent. apply Hu.
Qed.

Lemma handles_unique_debounceTask obj k a w :
  wf w → wf_timers w → handles_unique w →
  handles_unique (debounceTask obj k a w).1.
Proof.
  intros Hwf Hwt Hu. destruct (accepts w obj k) eqn:Ha.
  2: { by rewrite debounceTask_rejects. }
  destruct (debounceTask_one_timer obj k a w Hwf Hwt Ha)
    as (c & r0 & Hr0 & Hg0 & _).
  destruct (debounceTask_effect obj k a w Hwf Ha) as (r & p & Hr & _ & _ & _ & Hg & Hent).
  rewrite Hr0 in Hr. injection Hr as <-. rewrite Hg0 in Hg. injection Hg as <-.
  assert (∀ r1 k1 p1,
    JsMap.get k1 (entries (deref (debounceTask obj k a w).1 r1)) = Some p1 →
    (r1 = r0 ∧ k1 = k ∧ cancelId p1 = next_timer (scheduler w))
    ∨ ((r1 ≠ r0 ∨ k1 ≠ k) ∧ JsMap.get k1 (entries (deref w r1)) = Some p1
       ∧ cancelId p1 < next_timer (scheduler w))) as Hcases.
  { intros r1 k1 p1. rewrite Hent. destruct (decide (r0 = r1)) as [<-|Hne].
    - destruct (decide (k = k1)) as [<-|Hkk].
      + rewrite get_set_eq. intros [= <-]. by left.
      + rewrite get_set_ne by done. intros Hg1. right. split_and!; [by right|done|].
        by eapply wft_issued.
    - intros Hg1. right. split_and!; [by left|done|]. by eapply wft_issued. }
  intros r1 k1 p1 r2 k2 p2 H1 H2 Heq.
  destruct (Hcases _ _ _ H1) as [(-> & -> & Hid1)|(Hn1 & Hg1 & Hlt1)],
           (Hcases _ _ _ H2) as [(-> & -> & Hid2)|(Hn2 & Hg2 & Hlt2)];
    try done; try lia.
  by eapply Hu.
Qed.

Lemma handles_unique_cancelDebounce obj k w :
  handles_unique w → handles_unique (cancelDebounce obj k w).1.
Proof.
  intros Hu. destruct (cancelDebounce_effect obj k w) as (_ & _ & _ & _ & _ & Hent).
  intros r1 k1 p1 r2 k2 p2. rewrite !Hent.
  repeat case_decide; try done. apply Hu.
Qed.

Lemma handles_unique_step w w' :
  wf w → wf_timers w → handles_unique w → step w w' → handles_unique w'.
Proof.
  intros Hwf Hwt Hu Hstep. destruct Hstep as [o k a w|o k w|t w|o d w Hd|o n v w].
  - by apply handles_unique_debounceTask.
  - by apply handles_unique_cancelDebounce.
  - eapply handles_unique_frame, Hu. intros r k. unfold expire.
    destruct (sched_expire t (scheduler w)) as [[s [c args]]|]; [|done].
    by rewrite entries_call_debouncedTask.
  - eapply handles_unique_frame, Hu. intros r k.
    by destruct (run_disposable_world d w) as [s ->].
  - by eapply handles_unique_frame, Hu.
Qed.

Lemma reachable_handles_unique w : reachable w → handles_unique w.
Proof.
  induction 1 as [objs name|w w' Hreach IH Hstep].
  - intros r k p r' k' p' Hg. by destruct r.
  - eapply handles_unique_step; [by apply reachable_wf|by apply reachable_wf_timers|done..].
Qed.


Lemma filter_filter_in {A} (P Q : A → Prop) `{∀ x, Decision (P x)} `{∀ x, Decision (Q x)}
    (l : list A) :
  (∀ x, x ∈ l → P x → Q x) → filter P (filter Q l) = filter P l.
Proof.
  induction l as [|x l IH]; intros HPQ; [done|].
  assert (filter P (filter Q l) = filter P l) as IH'.
  { apply IH. intros y Hy. apply HPQ. by apply list_elem_of_further. }
  destruct (decide (Q x)) as [HQ|HQ].
  - rewrite (filter_cons_True Q) by done. destruct (decide (P x)).
    + rewrite !(filter_cons_True P) by done. by rewrite IH'.
    + by rewrite !(filter_cons_False P) by done.
  - rewrite (filter_cons_False Q) by done. rewrite (filter_cons_False P); [done|].
    intros HP. apply HQ, HPQ; [apply list_elem_of_here|done].
Qed.

Lemma NoDup_constant_length {A B} (f : A → B) (l : list A) (b : B) :
  NoDup (f <$> l) → (∀ x, x ∈ l → f x = b) → length l ≤ 1.
Proof.
  destruct l as [|x [|y l]]; simpl; [lia|lia|].
  intros [Hnot _]%NoDup_cons Hc. exfalso. apply Hnot.
  rewrite (Hc x), <- (Hc y).
  - apply list_elem_of_here.
  - apply list_elem_of_further, list_elem_of_here.
  - apply list_elem_of_here.
Qed.

(** A waiting timer belongs to the owner it targets, whose Map records it. *)
Lemma timer_recorded w t :
  wf_timers w → t ∈ timers (scheduler w) →
  ∃ r, registeredDebounces w !! cl_obj (timer_method t) = Some r
     ∧ timer_target t = cl_obj (timer_method t)
     ∧ JsMap.get (cl_nameOrFunction (timer_method t)) (entries (deref w r))
       = Some (MkPending (timer_method t) (timer_id t)).
Proof.
  intros Hwt Ht. destruct (wft_recorded _ Hwt t Ht) as [Htgt (r & Hr & Hg)].
  exists r. by rewrite <- Htgt.
Qed.

(** The timers after an accepted call. *)
Lemma debounceTask_timers obj k a w :
  wf w → wf_timers w → accepts w obj k = true →
  ∃ c, cl_obj c = obj ∧ cl_nameOrFunction c = k
     ∧ timers (scheduler (debounceTask obj k a w).1)
       = filter (λ t', ¬ same_debouncee obj c t') (timers (scheduler w))
         ++ [Timer (next_timer (scheduler w)) obj c (removelast a) (List.last a VUndefined)].
Proof.
  intros Hwf Hwt Ha. rewrite debounceTask_owner_known by done.
  destruct (pendingDebounces_of_fields obj w) as (r & _ & Hr & Ho & _ & _ & Hs & _).
  apply (wf_pendingDebounces_of obj) in Hwf.
  rewrite <- (accepts_same_objects _ _ obj k Ho) in Ha. rewrite <- Hs.
  set (w1 := (pendingDebounces_of obj w).1) in *. clearbody w1.
  destruct (JsMap.get k (entries (deref w1 r))) as [p|] eqn:Hp.
  - rewrite (debounceTask_known_pending _ _ _ _ _ _ Ha Hr Hp).
    destruct (closes_over_owner w1 obj r k (debouncedTask p)) as [Hobj Hk]; [done..| |].
    { eapply wf_closures; [done|by eapply heap_lookup_deref|done]. }
    by exists (debouncedTask p).
  - rewrite (debounceTask_known_fresh _ _ _ _ _ Ha Hr Hp).
    by exists (Closure (next_closure w1) r obj k).
Qed.

(** The timers after [cancelDebounce]. *)
Lemma cancelDebounce_timers obj k w :
  timers (scheduler (cancelDebounce obj k w).1) =
    match registeredDebounces w !! obj with
    | Some r =>
        match JsMap.get k (entries (deref w r)) with
        | Some p => filter (λ t, timer_id t ≠ cancelId p) (timers (scheduler w))
        | None => timers (scheduler w)
        end
    | None => timers (scheduler w)
    end.
Proof.
  destruct (registeredDebounces w !! obj) as [r|] eqn:Hr.
  2: { by rewrite cancelDebounce_no_Map. }
  destruct (JsMap.get k (entries (deref w r))) as [p|] eqn:Hp.
  2: { by erewrite cancelDebounce_no_entry. }
  by rewrite (cancelDebounce_pending _ _ _ _ _ Hr Hp), cancel_world.
Qed.

(** X8. After [cancelDebounce(obj, k)] no timer waits for the task [k] of
    [obj], whether a debounce was pending or not: the task will not be
    called by a timer requested before the cancellation. *)
Theorem cancelDebounce_stops_the_task obj k w :
  reachable w →
  filter (for_task obj k) (timers (scheduler (cancelDebounce obj k w).1)) = [].
Proof.
  intros Hreach. pose proof (reachable_wf _ Hreach) as Hwf.
  pose proof (reachable_wf_timers _ Hreach) as Hwt.
  apply filter_none. intros t. rewrite cancelDebounce_timers.
  destruct (registeredDebounces w !! obj) as [r|] eqn:Hr.
  - destruct (JsMap.get k (entries (deref w r))) as [p|] eqn:Hp.
    + intros [Hid Ht]%list_elem_of_filter Hft.
      by destruct (timers_for_task_pending w obj r k p t) as (_ & _ & ?).
    + intros Ht. by eapply timers_for_task_none.
  - intros Ht [Hobj _]. destruct (timer_recorded w t Hwt Ht) as (r & Hr' & _).
    congruence.
Qed.

(** X9. [cancelDebounce(obj, k)] cancels nothing else: the timers
    waiting for other tasks, of this owner or of others, still wait. *)
Theorem cancelDebounce_spares_other_tasks obj k w :
  reachable w →
  filter (λ t, ¬ for_task obj k t) (timers (scheduler (cancelDebounce obj k w).1))
  = filter (λ t, ¬ for_task obj k t) (timers (scheduler w)).
Proof.
  intros Hreach. pose proof (reachable_wf _ Hreach) as Hwf.
  pose proof (reachable_wf_timers _ Hreach) as Hwt.
  pose proof (reachable_handles_unique _ Hreach) as Hu.
  rewrite cancelDebounce_timers.
  destruct (registeredDebounces w !! obj) as [r|] eqn:Hr; [|done].
  destruct (JsMap.get k (entries (deref w r))) as [p|] eqn:Hp; [|done].
  apply filter_filter_in. intros t Ht Hnft Hid. apply Hnft.
  destruct (timer_recorded w t Hwt Ht) as (r' & Hr' & Htgt & Hg).
  destruct (Hu _ _ _ _ _ _ Hg Hp Hid) as [-> Hk].
  split; [by eapply wf_inj|done].
Qed.

(** X10. [debounceTask(obj, k, ...)] restarts only its own task: the
    timers waiting for other tasks still wait, whether the call is accepted
    or throws. *)
Theorem debounceTask_spares_other_tasks obj k a w :
  reachable w →
  filter (λ t, ¬ for_task obj k t) (timers (scheduler (debounceTask obj k a w).1))
  = filter (λ t, ¬ for_task obj k t) (timers (scheduler w)).
Proof.
  intros Hreach. pose proof (reachable_wf _ Hreach) as Hwf.
  pose proof (reachable_wf_timers _ Hreach) as Hwt.
  destruct (accepts w obj k) eqn:Ha.
  2: { by rewrite debounceTask_rejects. }
  destruct (debounceTask_timers obj k a w Hwf Hwt Ha) as (c & Hobj & Hk & ->).
  rewrite filter_app, filter_cons_False, filter_nil, app_nil_r.
  - apply filter_filter_in. intros t Ht Hnft [_ Hm]. apply Hnft.
    split; by rewrite Hm.
  - intros Hn. by apply Hn.
Qed.

(** X11. In every state the program can reach, each waiting timer is on
    record: the Map of the owner it targets has, under the task identity of
    its callback, an entry with that callback and that handle, so
    [cancelDebounce] and the teardown action can reach it. And for each
    owner and task identity at most one timer waits. *)
Theorem waiting_timers_are_recorded w :
  reachable w →
  (∀ t, t ∈ timers (scheduler w) →
     ∃ r, registeredDebounces w !! timer_target t = Some r
        ∧ for_task (timer_target t) (cl_nameOrFunction (timer_method t)) t
        ∧ JsMap.get (cl_nameOrFunction (timer_method t)) (entries (deref w r))
          = Some (MkPending (timer_method t) (timer_id t)))
  ∧ (∀ obj k, length (filter (for_task obj k) (timers (scheduler w))) ≤ 1).
Proof.
  intros Hreach. pose proof (reachable_wf _ Hreach) as Hwf.
  pose proof (reachable_wf_timers _ Hreach) as Hwt. split.
  - intros t Ht. destruct (timer_recorded w t Hwt Ht) as (r & Hr & Htgt & Hg).
    exists r. rewrite Htgt. by split_and!.
  - intros obj k.
    destruct (registeredDebounces w !! obj) as [r|] eqn:Hr.
    + destruct (JsMap.get k (entries (deref w r))) as [p|] eqn:Hp.
      * apply (NoDup_constant_length timer_id _ (cancelId p)).
        -- eapply sublist_NoDup; [by apply wft_nodup|]. apply fmap_sublist, sublist_filter.
        -- intros t [Hft Ht]%list_elem_of_filter.
           by destruct (timers_for_task_pending w obj r k p t) as (_ & _ & ?).
      * rewrite filter_none; [simpl; lia|]. intros t Ht. by eapply timers_for_task_none.
    + rewrite filter_none; [simpl; lia|]. intros t Ht [Hobj _].
      destruct (timer_recorded w t Hwt Ht) as (r & Hr' & _). congruence.
Qed.


(** The teardown actions on record are those of [debounceTask]: each closes
    over the Map of the owner it is registered for. *)
Lemma registered_disposable {S} `{Scheduler S} (w : world S) obj d :
  wf w → (obj, d) ∈ disposables w →
  ∃ r, registeredDebounces w !! obj = Some r ∧ d = getDebouncesDisposable (Some r).
Proof.
  intros Hwf Hin.
  assert ((obj, d) ∈ filter (λ x, x.1 = obj) (disposables w)) as Hf.
  { by apply list_elem_of_filter. }
  rewrite (wf_disposables _ Hwf) in Hf.
  destruct (registeredDebounces w !! obj) as [r|]; [|by apply elem_of_nil in Hf].
  apply list_elem_of_singleton in Hf. injection Hf as ->. by exists r.
Qed.

Lemma run_disposable_timers w r :
  run_disposable (getDebouncesDisposable (Some r)) w =
    (set_scheduler
       (λ s, RunLoop
          (filter (λ t, timer_id t ∉ cancelId <$> JsMap.values (entries (deref w r)))
             (timers s))
          (next_timer s)) w,
     Returned tt).
Proof.
  unfold run_disposable. simpl. erewrite bind_returned by reflexivity.
  apply cancel_each_runloop.
Qed.

(** X12. When a teardown action registered for an owner has run, no
    timer targeting that owner waits any more: none of its tasks will be
    called by a timer requested before. *)
Theorem teardown_stops_the_owner obj d w :
  reachable w → (obj, d) ∈ disposables w →
  filter (λ t, timer_target t = obj) (timers (scheduler (run_disposable d w).1)) = [].
Proof.
  intros Hreach Hin. pose proof (reachable_wf _ Hreach) as Hwf.
  pose proof (reachable_wf_timers _ Hreach) as Hwt.
  destruct (registered_disposable w obj d Hwf Hin) as (r & Hr & ->).
  rewrite run_disposable_timers. simpl.
  apply filter_none. intros t [Hnot Ht]%list_elem_of_filter Htgt. apply Hnot.
  destruct (timer_recorded w t Hwt Ht) as (r' & Hr' & Htgt' & Hg).
  rewrite <- Htgt', Htgt, Hr in Hr'. injection Hr' as <-.
  apply list_elem_of_fmap. eexists. split; [|by eapply get_values]. done.
Qed.

(** X13. The teardown action of one owner cancels no timer of another
    owner. *)
Theorem teardown_spares_other_owners obj d w :
  reachable w → (obj, d) ∈ disposables w →
  filter (λ t, timer_target t ≠ obj) (timers (scheduler (run_disposable d w).1))
  = filter (λ t, timer_target t ≠ obj) (timers (scheduler w)).
Proof.
  intros Hreach Hin. pose proof (reachable_wf _ Hreach) as Hwf.
  pose proof (reachable_wf_timers _ Hreach) as Hwt.
  pose proof (reachable_handles_unique _ Hreach) as Hu.
  destruct (registered_disposable w obj d Hwf Hin) as (r & Hr & ->).
  rewrite run_disposable_timers. simpl.
  apply filter_filter_in. intros t Ht Htgt (p & Hid & Hp)%list_elem_of_fmap.
  apply Htgt.
  destruct (values_get p (entries (deref w r))) as [k Hk]; [done| |].
  { eapply wf_keys; [done|by eapply heap_lookup_deref]. }
  destruct (timer_recorded w t Hwt Ht) as (r' & Hr' & Htgt' & Hg).
  destruct (Hu _ _ _ _ _ _ Hg Hk Hid) as [-> _].
  rewrite Htgt'. by eapply wf_inj.
Qed.

(** X14. Running a teardown action a second time right after the first
    changes nothing and returns normally; and the action leaves every Map
    as it is (it cancels the timers, it does not clear the entries). *)
Theorem teardown_twice d w :
  run_disposable d (run_disposable d w).1 = ((run_disposable d w).1, Returned tt)
  ∧ ∀ r, deref (run_disposable d w).1 r = deref w r.
Proof.
  destruct d as [[r|]]; [|done].
  change (Disposable (Some r)) with (getDebouncesDisposable (Some r)).
  rewrite !run_disposable_timers. simpl. split; [|done].
  f_equal. unfold set_scheduler. simpl. f_equal. f_equal.
  change (deref _ r) with (deref w r).
  apply filter_filter_in. tauto.
Qed.

Lemma get_prop_assign {S} (w : world S) o n v o' s :
  get_prop (assign o n v w) o' s =
    if decide (o = o' ∧ n = s) then v else get_prop w o' s.
Proof.
  unfold get_prop, assign. simpl. destruct (decide (o = o')) as [<-|Hne].
  - rewrite lookup_insert_eq. simpl. destruct (decide (n = s)) as [<-|Hns].
    + rewrite lookup_insert_eq. by rewrite decide_True.
    + rewrite lookup_insert_ne by done. rewrite decide_False by (by intros [_ ?]).
      by destruct (objects w !! o).
  - rewrite lookup_insert_ne by done. by rewrite decide_False by (by intros [? _]).
Qed.

(** X15. If, between [debounceTask(obj, name, ...)] and the expiry of its
    timer, [obj[name]] is set to something that is not a function, the
    fired callback throws a TypeError, no user function is called, and no
    timer for the task is left. *)
Theorem expiry_after_member_lost obj name a v w :
  reachable w → accepts w obj (VString name) = true →
  typeof v ≠ TFunction →
  let w1 := (debounceTask obj (VString name) a w).1 in
  let w2 := assign obj name v w1 in
  (expire (next_timer (scheduler w)) w2).2 = Threw TypeErrorNotAFunction
  ∧ calls (expire (next_timer (scheduler w)) w2).1 = calls w
  ∧ filter (for_task obj (VString name))
      (timers (scheduler (expire (next_timer (scheduler w)) w2).1)) = [].
Proof.
  intros Hreach Ha Hv w1 w2.
  destruct (debounceTask_one_timer obj (VString name) a w)
    as (c & r & Hr & Hg & Hobj & Hk & Hfil & Ho & Hc);
    [by apply reachable_wf|by apply reachable_wf_timers|done|].
  assert (reachable w1) as Hreach1.
  { eapply reachable_step; [done|]. apply step_debounceTask. }
  fold w1 in Hr, Hg, Hfil, Ho, Hc.
  set (t := Timer _ _ _ _ _) in *.
  assert (t ∈ timers (scheduler w1)) as Ht.
  { eapply (list_elem_of_filter (for_task obj (VString name))). rewrite Hfil.
    apply list_elem_of_here. }
  unfold expire.
  change (sched_expire (next_timer (scheduler w)) (scheduler w2))
    with (runloop_expire (timer_id t) (scheduler w1)).
  unfold runloop_expire.
  rewrite (find_unique _ _ (wft_nodup _ (reachable_wf_timers _ Hreach1)) Ht).
  change (timer_method t) with c. change (timer_args t) with (removelast a).
  set (w3 := set_scheduler _ w2).
  assert (get_prop w3 obj name = v) as Hm.
  { change (get_prop w3 obj name) with (get_prop w2 obj name).
    unfold w2. rewrite get_prop_assign. by rewrite decide_True. }
  assert (call_debouncedTask c (removelast a) w3
          = ((delete_property (cl_pendingDebounces c) (window_name w3) w3).1,
             Threw TypeErrorNotAFunction)) as Hcall.
  { unfold call_debouncedTask. rewrite Hk, Hobj.
    erewrite bind_returned by reflexivity.
    erewrite bind_returned by reflexivity.
    erewrite bind_returned by reflexivity.
    change (member _ obj (VString name)) with (get_prop w3 obj name). rewrite Hm.
    by destruct v. }
  rewrite Hcall. split_and!; [done|by simpl|]. simpl.
  rewrite list_filter_filter.
  rewrite (list_filter_iff _ (λ t', (timer_id t' ≠ timer_id t) ∧ for_task obj (VString name) t'))
    by tauto.
  rewrite <- list_filter_filter, Hfil.
  by rewrite filter_cons_False by (intros Hid; by apply Hid).
Qed.

(** X16. The fired callback does not look at [isDestroyed]: if the owner
    is marked destroyed after an accepted [debounceTask] call and the
    timer is not cancelled, then at the expiry the owner reports itself
    destroyed and the timer still calls the task, once, with the forwarded
    arguments. *)
Theorem expiry_on_destroyed_owner obj k a w :
  reachable w → accepts w obj k = true →
  let w1 := (debounceTask obj k a w).1 in
  let w2 := assign obj "isDestroyed" (VBool true) w1 in
  truthy (get_prop w2 obj "isDestroyed") = true
  ∧ ∃ f, task_function w obj k = VFunction f
       ∧ (expire (next_timer (scheduler w)) w2).2 = Returned tt
       ∧ calls (expire (next_timer (scheduler w)) w2).1
         = calls w ++ [Call obj f (removelast a)].
Proof.
  intros Hreach Ha w1 w2.
  destruct (debounceTask_one_timer obj k a w)
    as (c & r & Hr & Hg & Hobj & Hk & Hfil & Ho & Hc);
    [by apply reachable_wf|by apply reachable_wf_timers|done|].
  assert (reachable w1) as Hreach1.
  { eapply reachable_step; [done|]. apply step_debounceTask. }
  fold w1 in Hr, Hg, Hfil, Ho, Hc.
  set (t := Timer _ _ _ _ _) in *.
  split.
  { unfold w2. by rewrite get_prop_assign, decide_True. }
  destruct (accepts_task_function w obj k Ha) as [f Hf]. exists f. split; [done|].
  assert (t ∈ timers (scheduler w2)) as Ht.
  { change (scheduler w2) with (scheduler w1).
    eapply (list_elem_of_filter (for_task obj k)). rewrite Hfil. apply list_elem_of_here. }
  destruct (expire_timer w2 t f) as (Hret & Hcalls & _).
  { change (scheduler w2) with (scheduler w1).
    by apply (wft_nodup w1), reachable_wf_timers. }
  { done. }
  { simpl. rewrite Hobj, Hk. rewrite <- Hf. unfold task_function, member.
    destruct k; try done. unfold w2. rewrite get_prop_assign.
    apply accepts_split in Ha as (_ & H2 & H3). simpl in H2.
    unfold member, is_function in H2.
    rewrite decide_False.
    - unfold get_prop. by rewrite Ho.
    - intros [_ <-]. destruct (get_prop w obj "isDestroyed"); by simpl in *. }
  change (timer_id t) with (next_timer (scheduler w)) in *.
  split; [done|]. rewrite Hcalls. simpl. by rewrite Hobj, <- Hc.
Qed.

End MoreRunLoop.

(** ** The small applications again *)

Lemma app_two_reachable : reachable app_two.
Proof.
  eapply reachable_step; [|apply step_debounceTask].
  eapply reachable_step; [apply reachable_initial | apply step_debounceTask].
Defined.

Lemma debounceTask_accepted_postcondition_witness :
  reachable app
  ∧ accepts app 1 (VString "logMe") = true
  ∧ ∃ r p,
      registeredDebounces app_pending !! 1 = Some r
      ∧ JsMap.get (VString "logMe") (entries (deref app_pending r)) = Some p
      ∧ cl_obj (debouncedTask p) = 1
      ∧ cl_nameOrFunction (debouncedTask p) = VString "logMe"
      ∧ cl_pendingDebounces (debouncedTask p) = r
      ∧ calls app_pending = calls app
      ∧ objects app_pending = objects app.
Proof.
  split; [apply reachable_initial|]. split; [reflexivity|].
  exact (debounceTask_accepted_postcondition 1 (VString "logMe") [VNumber 300] app
           (reachable_initial _ _) eq_refl).
Defined.

Lemma other_pending_debounces_untouched_witness :
  reachable app_two
  ∧ registeredDebounces app_two !! 2 = Some 1
  ∧ JsMap.get (VString "logMe")
      (entries (deref (cancelDebounce 1 (VString "logMe") app_two).1 1))
    = Some (MkPending (Closure 1 1 2 (VString "logMe")) 1).
Proof.
  assert (2 ≠ 1) as Hne by lia.
  split; [apply app_two_reachable|]. split; [reflexivity|].
  exact (proj2 (other_pending_debounces_untouched 1 (VString "logMe") [] app_two
                  2 1 (VString "logMe") app_two_reachable eq_refl (or_introl Hne))).
Defined.

Lemma owner_keeps_its_Map_witness :
  reachable app_pending
  ∧ step app_pending (expire 0 app_pending).1
  ∧ registeredDebounces app_pending !! 1 = Some 0
  ∧ registeredDebounces (expire 0 app_pending).1 !! 1 = Some 0.
Proof.
  split; [apply app_pending_reachable|]. split; [apply step_expire|].
  split; [reflexivity|].
  exact (proj1 (owner_keeps_its_Map app_pending _ 1 0 app_pending_reachable
                  (step_expire 0 app_pending) eq_refl)).
Defined.

Lemma stored_callbacks_not_shared_witness :
  reachable app_two
  ∧ JsMap.get (VString "logMe") (entries (deref app_two 0))
    = Some (MkPending (Closure 0 0 1 (VString "logMe")) 0)
  ∧ (1 = 1 ∧ VString "logMe" = VString "logMe").
Proof.
  split; [apply app_two_reachable|]. split; [reflexivity|].
  exact (stored_callbacks_not_shared app_two 1 0 (VString "logMe")
           (MkPending (Closure 0 0 1 (VString "logMe")) 0)
           1 0 (VString "logMe") (MkPending (Closure 0 0 1 (VString "logMe")) 0)
           app_two_reachable eq_refl eq_refl eq_refl eq_refl eq_refl).
Defined.

Lemma cancelDebounce_stops_the_task_witness :
  reachable app_two
  ∧ filter (for_task 1 (VString "logMe"))
      (timers (scheduler (cancelDebounce 1 (VString "logMe") app_two).1)) = [].
Proof.
  split; [apply app_two_reachable|].
  exact (cancelDebounce_stops_the_task 1 (VString "logMe") app_two app_two_reachable).
Defined.

Lemma cancelDebounce_spares_other_tasks_witness :
  reachable app_two
  ∧ filter (λ t, ¬ for_task 1 (VString "logMe") t)
      (timers (scheduler (cancelDebounce 1 (VString "logMe") app_two).1))
    = [Timer 1 2 (Closure 1 1 2 (VString "logMe")) [] (VNumber 300)].
Proof.
  split; [apply app_two_reachable|].
  exact (cancelDebounce_spares_other_tasks 1 (VString "logMe") app_two app_two_reachable).
Defined.

Lemma debounceTask_spares_other_tasks_witness :
  reachable app_two
  ∧ filter (λ t, ¬ for_task 1 (VString "logMe") t)
      (timers (scheduler (debounceTask 1 (VString "logMe") [VNumber 5; VNumber 300] app_two).1))
    = [Timer 1 2 (Closure 1 1 2 (VString "logMe")) [] (VNumber 300)].
Proof.
  split; [apply app_two_reachable|].
  exact (debounceTask_spares_other_tasks 1 (VString "logMe") [VNumber 5; VNumber 300]
           app_two app_two_reachable).
Defined.

Lemma waiting_timers_are_recorded_witness :
  reachable app_two
  ∧ length (filter (for_task 1 (VString "logMe")) (timers (scheduler app_two))) ≤ 1.
Proof.
  split; [apply app_two_reachable|].
  exact (proj2 (waiting_timers_are_recorded app_two app_two_reachable) 1 (VString "logMe")).
Defined.

Lemma app_two_disposable : (1, getDebouncesDisposable (Some 0)) ∈ disposables app_two.
Proof. apply list_elem_of_here. Defined.

Lemma teardown_stops_the_owner_witness :
  reachable app_two
  ∧ (1, getDebouncesDisposable (Some 0)) ∈ disposables app_two
  ∧ filter (λ t, timer_target t = 1)
      (timers (scheduler (run_disposable (getDebouncesDisposable (Some 0)) app_two).1)) = [].
Proof.
  split; [apply app_two_reachable|]. split; [apply app_two_disposable|].
  exact (teardown_stops_the_owner 1 _ app_two app_two_reachable app_two_disposable).
Defined.

Lemma teardown_spares_other_owners_witness :
  reachable app_two
  ∧ (1, getDebouncesDisposable (Some 0)) ∈ disposables app_two
  ∧ filter (λ t, timer_target t ≠ 1)
      (timers (scheduler (run_disposable (getDebouncesDisposable (Some 0)) app_two).1))
    = [Timer 1 2 (Closure 1 1 2 (VString "logMe")) [] (VNumber 300)].
Proof.
  split; [apply app_two_reachable|]. split; [apply app_two_disposable|].
  exact (teardown_spares_other_owners 1 _ app_two app_two_reachable app_two_disposable).
Defined.

Lemma expiry_after_member_lost_witness :
  reachable app
  ∧ accepts app 1 (VString "logMe") = true
  ∧ typeof VUndefined ≠ TFunction
  ∧ (expire 0 (assign 1 "logMe" VUndefined app_pending)).2 = Threw TypeErrorNotAFunction
  ∧ calls (expire 0 (assign 1 "logMe" VUndefined app_pending)).1 = [].
Proof.
  assert (typeof VUndefined ≠ TFunction) as Hv by discriminate.
  split; [apply reachable_initial|]. split; [reflexivity|]. split; [exact Hv|].
  destruct (expiry_after_member_lost 1 "logMe" [VNumber 300] VUndefined app
              (reachable_initial _ _) eq_refl Hv) as (Hthrow & Hcalls & _).
  split; [exact Hthrow | exact Hcalls].
Defined.

Lemma expiry_on_destroyed_owner_witness :
  reachable app
  ∧ accepts app 1 (VString "logMe") = true
  ∧ truthy (get_prop (assign 1 "isDestroyed" (VBool true) app_pending) 1 "isDestroyed") = true
  ∧ ∃ f, task_function app 1 (VString "logMe") = VFunction f
       ∧ (expire 0 (assign 1 "isDestroyed" (VBool true) app_pending)).2 = Returned tt
       ∧ calls (expire 0 (assign 1 "isDestroyed" (VBool true) app_pending)).1
         = calls app ++ [Call 1 f []].
Proof.
  split; [apply reachable_initial|]. split; [reflexivity|].
  exact (expiry_on_destroyed_owner 1 (VString "logMe") [VNumber 300] app
           (reachable_initial _ _) eq_refl).
Defined.

Lemma debounceTask_accepted_requests_one_timer_witness :
  reachable app
  ∧ accepts app 1 (VString "logMe") = true
  ∧ (debounceTask 1 (VString "logMe") [VNumber 300] app).2 = Returned tt
  ∧ ∃ r c,
      registeredDebounces app_pending !! 1 = Some r
      ∧ scheduler app_pending
        = (sched_debounce 1 c [VNumber 300] (scheduler app)).1
      ∧ JsMap.get (VString "logMe") (entries (deref app_pending r))
        = Some (MkPending c (sched_debounce 1 c [VNumber 300] (scheduler app)).2).
Proof.
  split; [apply reachable_initial|]. split; [reflexivity|].
  exact (debounceTask_accepted_requests_one_timer 1 (VString "logMe") [VNumber 300] app
           (reachable_initial _ _) eq_refl).
Defined.
